(** * Mail pipeline: a shallow embedding of [main_working_1.py] and
    [main_working_2.py]

    The two scripts are successive versions of the same unread-mail
    processor.  Python [str] values are modelled by lists of [ascii], one
    character per code point, so the model speaks about text in the
    Latin-1 range (code points below 256).  Remote calls (the mailbox
    service, the [ollama] subprocess, the CSV file) are modelled by an
    explicit world that is threaded through a small state-and-exception
    monad.  Outside the model: the OAuth bootstrap of [gmail_authenticate],
    the reading of [config.json] (the world holds its [Label] entry), and
    the CSV text codec of [pandas] (the world holds the table that
    [read_csv] loads and [to_csv] stores). *)

From Stdlib Require Import Ascii String Bool Arith Lia ZArith NArith.
From Stdlib Require Import List.
Import ListNotations.

(** ** Python strings *)

Module PyStr.

Abbreviation str := (list ascii).

Definition lit (s : string) : str := list_ascii_of_string s.

Definition code (c : ascii) : N := N_of_ascii c.

Definition between (lo hi : N) (c : ascii) : bool :=
  (N.leb lo (code c) && N.leb (code c) hi)%bool.

Definition one_of (l : list N) (c : ascii) : bool :=
  existsb (N.eqb (code c)) l.

(** [str.isspace] on one character: TAB..CR, FS..US, SPACE, NEL, NBSP. *)
Definition is_space (c : ascii) : bool :=
  (between 9 13 c || between 28 32 c || one_of [133; 160]%N c)%bool.

(** The class [\w] of [re] on [str] patterns: alphanumeric code points
    (alphabetic, decimal, digit or numeric) and the underscore. *)
Definition is_word (c : ascii) : bool :=
  (between 48 57 c || between 65 90 c || between 97 122 c
   || one_of [95; 170; 178; 179; 181; 185; 186; 188; 189; 190]%N c
   || between 192 214 c || between 216 246 c || between 248 255 c)%bool.

(** [str.lower] on one character. *)
Definition lower_char (c : ascii) : ascii :=
  if (between 65 90 c || between 192 214 c || between 216 222 c)%bool
  then ascii_of_N (code c + 32)
  else c.

Definition lower (s : str) : str := map lower_char s.

Fixpoint str_eqb (a b : str) : bool :=
  match a, b with
  | [], [] => true
  | x :: a', y :: b' => (Ascii.eqb x y && str_eqb a' b')%bool
  | _, _ => false
  end.

(** [x in l] for a list [l] of strings. *)
Definition mem (x : str) (l : list str) : bool := existsb (str_eqb x) l.

Fixpoint drop_while (p : ascii -> bool) (s : str) : str :=
  match s with
  | c :: s' => if p c then drop_while p s' else s
  | [] => []
  end.

Definition lstrip_by (p : ascii -> bool) (s : str) : str := drop_while p s.

Definition rstrip_by (p : ascii -> bool) (s : str) : str :=
  rev (drop_while p (rev s)).

Definition strip_by (p : ascii -> bool) (s : str) : str :=
  rstrip_by p (lstrip_by p s).

(** [s.strip()] *)
Definition strip (s : str) : str := strip_by is_space s.

Definition char_in (chars : str) (c : ascii) : bool :=
  existsb (Ascii.eqb c) chars.

(** [s.strip(chars)] and [s.rstrip(chars)]: [chars] is a set of
    characters, not a suffix. *)
Definition strip_chars (chars s : str) : str := strip_by (char_in chars) s.
Definition rstrip_chars (chars s : str) : str := rstrip_by (char_in chars) s.

Fixpoint starts_with (p s : str) : bool :=
  match p, s with
  | [], _ => true
  | x :: p', y :: s' => (Ascii.eqb x y && starts_with p' s')%bool
  | _ :: _, [] => false
  end.

(** [needle in hay] for two strings. *)
Fixpoint contains (needle hay : str) : bool :=
  match hay with
  | [] => starts_with needle []
  | _ :: hay' => (starts_with needle hay || contains needle hay')%bool
  end.

(** [sep.join(l)] *)
Fixpoint join (sep : str) (l : list str) : str :=
  match l with
  | [] => []
  | [x] => x
  | x :: l' => x ++ sep ++ join sep l'
  end.

Definition nl : ascii := ascii_of_N 10.

Definition dquote : ascii := ascii_of_N 34.

End PyStr.

Import PyStr.

Coercion lit : string >-> list.

Open Scope string_scope.
Open Scope list_scope.

(** ** The two regular expressions of the scripts

    Each pattern is written out as the backtracking matcher that [re]
    runs for it. *)

Module Regex.

(** [.] without [re.DOTALL]: any character but the line feed. *)
Definition dot (c : ascii) : bool := negb (Ascii.eqb c nl).

(** A starred group followed by the continuation [k]: the group takes as many
    characters as it can and gives them back one at a time while [k]
    fails.  [acc] is what the group holds so far. *)
Fixpoint greedy_star {A} (p : ascii -> bool) (k : str -> str -> option A)
  (acc s : str) : option A :=
  match s with
  | c :: s' =>
      if p c then
        match greedy_star p k (acc ++ [c]) s' with
        | Some r => Some r
        | None => k acc s
        end
      else k acc s
  | [] => k acc s
  end.

(** One literal character followed by [k]. *)
Definition char {A} (c : ascii) (k : str -> option A) (s : str) : option A :=
  match s with
  | c' :: s' => if Ascii.eqb c' c then k s' else None
  | [] => None
  end.

(** The [re.match] call of [parse_email], whose pattern is two starred
    [dot] groups, the first followed by [<] and the second by [>].  It is
    anchored at the start; the result holds the two groups. *)
Definition match_angle (full : str) : option (str * str) :=
  greedy_star dot
    (fun g1 r1 =>
       char "<" (fun r2 =>
         greedy_star dot
           (fun g2 r3 => char ">" (fun _ => Some (g1, g2)) r3)
           [] r2) r1)
    [] full.

(** One pattern character under [re.IGNORECASE]. *)
Definition ci_eqb (p c : ascii) : bool :=
  Ascii.eqb (lower_char p) (lower_char c).

(** A literal under [re.IGNORECASE] at the head of [s]: the rest of [s]
    when it matches. *)
Fixpoint literal_ci (p s : str) : option str :=
  match p, s with
  | [], _ => Some s
  | x :: p', y :: s' => if ci_eqb x y then literal_ci p' s' else None
  | _ :: _, [] => None
  end.

Definition is_word_opt (c : option ascii) : bool :=
  match c with
  | Some c => is_word c
  | None => false
  end.

(** [\b] between the character before the position and the one at it. *)
Definition word_boundary (prev next : option ascii) : bool :=
  xorb (is_word_opt prev) (is_word_opt next).

Definition then_colon (r : option str) : bool :=
  match r with
  | Some (c :: _) => Ascii.eqb c ":"
  | _ => false
  end.

(** [\b(Fwd|FW):] tried at one position; [prev] is the character before
    it.  The alternation tries [Fwd] first and [FW] when that fails. *)
Definition fwd_at (prev : option ascii) (s : str) : bool :=
  (word_boundary prev (hd_error s)
   && (then_colon (literal_ci "Fwd" s) || then_colon (literal_ci "FW" s)))%bool.

(** [re.search(r'\b(Fwd|FW):', subject, re.IGNORECASE)]: every start
    position from left to right. *)
Fixpoint search_fwd (prev : option ascii) (s : str) : bool :=
  (fwd_at prev s
   || match s with
      | c :: s' => search_fwd (Some c) s'
      | [] => false
      end)%bool.

End Regex.

(** ** [main_working_1.py] *)

Module V1.

(** Line 115. *)
Definition forwarded (subject : str) : str :=
  if Regex.search_fwd None subject then "Yes" else "No".

(** Lines 72-82. *)
Definition get_section (label_ids : list str) : str :=
  if mem "CATEGORY_SOCIAL" label_ids then "Social"
  else if mem "CATEGORY_PROMOTIONS" label_ids then "Promotions"
  else if mem "CATEGORY_UPDATES" label_ids then "Updates"
  else if mem "CATEGORY_FORUMS" label_ids then "Forums"
  else "Primary".

End V1.

(** ** Exceptions and results *)

(** Remote operations of the script: the mailbox service and the CSV
    file. *)
Inductive Call :=
| MessagesList
| MessagesGet (id : str)
| MessagesModifyAdd (id label : str)
| MessagesModifyRemove (id label : str)
| LabelsList
| LabelsCreate (name : str)
| ReadCsv
| WriteCsv.

(** The exceptions the model raises; all of them are subclasses of
    Python's [Exception]. *)
Inductive Exn :=
| HttpError (c : Call)
| OSError (what : str)
| DecodeError.

Inductive Result (A : Type) :=
| Ok (a : A)
| Raise (e : Exn).

Arguments Ok {A} a.
Arguments Raise {A} e.

(** [try: body / except Exception: handler] *)
Definition try_except {A} (body : Result A) (handler : Exn -> Result A)
  : Result A :=
  match body with
  | Ok a => Ok a
  | Raise e => handler e
  end.

Definition bind_result {A B} (r : Result A) (f : A -> Result B) : Result B :=
  match r with
  | Ok a => f a
  | Raise e => Raise e
  end.

(** ** [main_working_2.py]: the functions without remote state *)

Module V2.

(** Lines 28-35. *)
Definition parse_email (full : str) : str * str :=
  match Regex.match_angle full with
  | Some (g1, g2) =>
      let name := strip_chars [dquote] (strip g1) in
      let email := strip g2 in
      (name, email)
  | None => ([], strip full)
  end.

(** Line 146. *)
Definition forwarded (subject : str) : str :=
  if (contains "Fwd:" subject || contains "FW:" subject)%bool
  then "Yes" else "No".

(** Lines 87-97. *)
Definition get_section (label_ids : list str) : str :=
  if mem "CATEGORY_SOCIAL" label_ids then "Social"
  else if mem "CATEGORY_PROMOTIONS" label_ids then "Promotions"
  else if mem "CATEGORY_UPDATES" label_ids then "Updates"
  else if mem "CATEGORY_FORUMS" label_ids then "Forums"
  else "Primary".

(** The prompt of line 72. *)
Definition categorize_prompt (text : str) (labels : list str) : str :=
  let labels_str := join ", " labels ++ ", Other" in
  "Categorize the following email into one of these labels: "
    ++ labels_str ++ "." ++ [nl] ++ "Email Content:" ++ [nl] ++ text ++ [nl]
    ++ "Return only the label name.".

(** Lines 69-84.  [run] is [subprocess.run] on [ollama run model] with
    the prompt as input: it gives the captured standard output or
    raises. *)
Definition categorize_email (run : str -> str -> Result str)
  (text : str) (labels : list str) : Result str :=
  try_except
    (bind_result (run "mistral" (categorize_prompt text labels))
       (fun stdout =>
          let category := strip stdout in
          let category :=
            if negb (mem category labels) then lit "Other" else category in
          Ok category))
    (fun _ => Ok (lit "Other")).

(** One element of [payload["parts"]].  [part_data] is
    [part["body"]["data"]] when that key is present; [filename] is
    [part.get("filename")]. *)
Record Part := {
  mimeType : str;
  part_data : option str;
  filename : option str
}.

(** [full_msg["payload"]]: [body_data] is [payload["body"]["data"]] and
    [parts] is [payload["parts"]], each when the key is present. *)
Record Payload := {
  headers : list (str * str);
  body_data : option str;
  parts : option (list Part)
}.

(** What [messages().get()] returns. *)
Record Message := {
  msg_id : str;
  payload : Payload;
  labelIds : option (list str);
  internalDate : Z
}.

(** [next((h["value"] for h in headers if h["name"] == name), default)] *)
Definition header (hs : list (str * str)) (name default : str) : str :=
  match find (fun h => str_eqb (fst h) name) hs with
  | Some h => snd h
  | None => default
  end.

(** Lines 38-50.  [decode] is [base64.urlsafe_b64decode] followed by the
    lossy UTF-8 decoding; it raises on malformed base64. *)
Definition get_email_body (decode : str -> Result str) (p : Payload) : str :=
  let body :=
    try_except
      (match body_data p with
       | Some data => decode data
       | None =>
           match parts p with
           | Some ps =>
               match find (fun part =>
                             (str_eqb (mimeType part) "text/plain"
                              && match part_data part with
                                 | Some _ => true
                                 | None => false
                                 end)%bool) ps with
               | Some {| part_data := Some data |} => decode data
               | _ => Ok []
               end
           | None => Ok []
           end
       end)
      (fun _ => Ok []) in
  match body with
  | Ok b => b
  | Raise _ => []
  end.

(** The truth value of [part.get("filename")]. *)
Definition truthy_filename (part : Part) : option str :=
  match filename part with
  | Some [] => None
  | other => other
  end.

(** Lines 149-157, the loop: the flag and the accumulated names, each
    name followed by the separator. *)
Fixpoint scan_parts (ps : list Part) (attachment names : str) : str * str :=
  match ps with
  | [] => (attachment, names)
  | part :: ps' =>
      match truthy_filename part with
      | Some f => scan_parts ps' "Yes" (names ++ f ++ ", ")
      | None => scan_parts ps' attachment names
      end
  end.

(** Lines 149-157: the [Attachment] and [Attachment Names] cells. *)
Definition attachments (p : Payload) : str * str :=
  let '(attachment, attachment_names) :=
    match parts p with
    | Some ps => scan_parts ps "No" []
    | None => (lit "No", [])
    end in
  (attachment, rstrip_chars ", " attachment_names).

End V2.

(** ** The record store as [pandas] holds it *)

Module Frame.

Inductive Cell :=
| CStr (s : str)
| CDate (ms : Z)
| CNum (hundredths : Z)
| CNaN.

Record DataFrame := {
  columns : list str;
  data : list (list Cell)
}.

(** The value of a row under column [c]; [NaN] when the frame has no
    such column. *)
Fixpoint cell_at (cols : list str) (row : list Cell) (c : str) : Cell :=
  match cols, row with
  | c' :: cols', v :: row' => if str_eqb c' c then v else cell_at cols' row' c
  | _, _ => CNaN
  end.

Definition reindex (cols newcols : list str) (row : list Cell) : list Cell :=
  map (cell_at cols row) newcols.

(** [pd.concat([a, b], ignore_index=True)]: the columns of [a] followed
    by those only [b] has, the rows of [a] followed by the rows of [b],
    every row aligned on the new columns. *)
Definition concat (a b : DataFrame) : DataFrame :=
  let cols :=
    columns a ++ filter (fun c => negb (mem c (columns a))) (columns b) in
  {| columns := cols;
     data := map (reindex (columns a) cols) (data a)
             ++ map (reindex (columns b) cols) (data b) |}.

(** Lines 192-196. *)
Definition COLUMNS : list str :=
  map lit ["From Name"; "From Email"; "To Email"; "Forwarded"; "Subject";
           "Body"; "Section"; "Attachment"; "Attachment Names"; "Date";
           "TimeTaken"; "Category"].

Definition new_frame (rows : list (list Cell)) : DataFrame :=
  {| columns := COLUMNS; data := rows |}.

(** Lines 192-201: the frame that line 203 writes, from the frame the
    file holds (if the file exists) and the rows of this run. *)
Definition append_rows (existing : option DataFrame) (rows : list (list Cell))
  : DataFrame :=
  let df_new := new_frame rows in
  match existing with
  | Some df_existing => concat df_existing df_new
  | None => df_new
  end.

End Frame.

Import Frame.

(** ** The world of a run *)

Record Label := {
  label_id : str;
  label_name : str
}.

(** [mailbox] is what the mail service holds, [remote_labels] its labels
    in the order [labels().list()] gives them, [csv] the table in
    [emails.csv] when the file exists, [config] the [Label] entry of
    [config.json] when there is one, and [trace] the remote calls made so
    far, oldest first. *)
Record World := {
  mailbox : list V2.Message;
  remote_labels : list Label;
  csv : option DataFrame;
  config : option (list str);
  trace : list Call
}.

(** What the run does not control: which calls fail, the id the service
    gives a new label, the base64 and UTF-8 decoder, the [ollama]
    subprocess (its answer may change from one call to the next, so it
    sees the calls made so far), and the clock. *)
Record Env := {
  fault : list Call -> Call -> bool;
  new_label_id : list Label -> str -> str;
  b64decode : str -> Result str;
  ollama : list Call -> str -> str -> Result str;
  elapsed : list Call -> Z
}.

Definition set_mailbox (mb : list V2.Message) (w : World) : World :=
  {| mailbox := mb; remote_labels := remote_labels w; csv := csv w;
     config := config w; trace := trace w |}.

Definition set_remote_labels (ls : list Label) (w : World) : World :=
  {| mailbox := mailbox w; remote_labels := ls; csv := csv w;
     config := config w; trace := trace w |}.

Definition set_csv (f : option DataFrame) (w : World) : World :=
  {| mailbox := mailbox w; remote_labels := remote_labels w; csv := f;
     config := config w; trace := trace w |}.

Definition log (c : Call) (w : World) : World :=
  {| mailbox := mailbox w; remote_labels := remote_labels w; csv := csv w;
     config := config w; trace := trace w ++ [c] |}.

(** A computation changes the world and returns or raises; what it did
    before raising stays done. *)
Definition M (A : Type) : Type := World -> Result A * World.

Definition ret {A} (a : A) : M A := fun w => (Ok a, w).

Definition bind {A B} (m : M A) (f : A -> M B) : M B :=
  fun w =>
    match m w with
    | (Ok a, w') => f a w'
    | (Raise e, w') => (Raise e, w')
    end.

Notation "x <- m ;; k" := (bind m (fun x => k))
  (at level 61, m at next level, right associativity).

Notation "m ;;; k" := (bind m (fun _ => k))
  (at level 61, right associativity).

(** ** [main_working_2.py]: the run *)

Section Pipeline.

Variable env : Env.

(** A remote call is added to the trace and then fails or takes
    effect. *)
Definition remote {A} (c : Call) (op : World -> Result A * World) : M A :=
  fun w =>
    if fault env (trace w) c then (Raise (HttpError c), log c w)
    else op (log c w).

Definition label_ids_of (m : V2.Message) : list str :=
  match V2.labelIds m with
  | Some l => l
  | None => []
  end.

Definition is_unread (m : V2.Message) : bool := mem "UNREAD" (label_ids_of m).

Definition has_id (id : str) (m : V2.Message) : bool :=
  str_eqb (V2.msg_id m) id.

(** [messages().list(userId="me", labelIds=["UNREAD"], maxResults=10)] *)
Definition messages_list : M (list str) :=
  remote MessagesList
    (fun w => (Ok (firstn 10 (map V2.msg_id (filter is_unread (mailbox w)))), w)).

(** [messages().get(userId="me", id=id)] *)
Definition messages_get (id : str) : M V2.Message :=
  remote (MessagesGet id)
    (fun w =>
       match find (has_id id) (mailbox w) with
       | Some m => (Ok m, w)
       | None => (Raise (HttpError (MessagesGet id)), w)
       end).

Definition update_label_ids (f : list str -> list str) (id : str)
  (mb : list V2.Message) : list V2.Message :=
  map (fun m =>
         if has_id id m then
           {| V2.msg_id := V2.msg_id m; V2.payload := V2.payload m;
              V2.labelIds := Some (f (label_ids_of m));
              V2.internalDate := V2.internalDate m |}
         else m) mb.

Definition messages_modify (c : Call) (f : list str -> list str) (id : str)
  : M unit :=
  remote c
    (fun w =>
       if existsb (has_id id) (mailbox w)
       then (Ok tt, set_mailbox (update_label_ids f id (mailbox w)) w)
       else (Raise (HttpError c), w)).

(** [messages().modify(id=id, body={"addLabelIds": [label]})] *)
Definition messages_modify_add (id label : str) : M unit :=
  messages_modify (MessagesModifyAdd id label)
    (fun l => if mem label l then l else l ++ [label]) id.

(** [messages().modify(id=id, body={"removeLabelIds": [label]})] *)
Definition messages_modify_remove (id label : str) : M unit :=
  messages_modify (MessagesModifyRemove id label)
    (filter (fun x => negb (str_eqb x label))) id.

(** [labels().list(userId="me").execute().get("labels", [])] *)
Definition labels_list : M (list Label) :=
  remote LabelsList (fun w => (Ok (remote_labels w), w)).

(** [labels().create(userId="me", body={"name": name})] *)
Definition labels_create (name : str) : M Label :=
  remote (LabelsCreate name)
    (fun w =>
       let label :=
         {| label_id := new_label_id env (remote_labels w) name;
            label_name := name |} in
       (Ok label, set_remote_labels (remote_labels w ++ [label]) w)).

(** [pd.read_csv("emails.csv")] *)
Definition read_csv : M DataFrame :=
  remote ReadCsv
    (fun w =>
       match csv w with
       | Some df => (Ok df, w)
       | None => (Raise (OSError "emails.csv"), w)
       end).

(** [df.to_csv("emails.csv", index=False)] *)
Definition to_csv (df : DataFrame) : M unit :=
  remote WriteCsv (fun w => (Ok tt, set_csv (Some df) w)).

(** Lines 103-107: the id of the first label whose lower-cased name is
    the lower-cased [label_name]. *)
Definition find_label (labels : list Label) (name : str) : option str :=
  match find (fun lbl => str_eqb (lower (label_name lbl)) (lower name))
          labels with
  | Some lbl => Some (label_id lbl)
  | None => None
  end.

(** Lines 102-110 of [move_to_label]: the label id it goes on to apply.
    [if not label_id] holds for [None] and for the empty string. *)
Definition ensure_label (name : str) : M str :=
  labels <- labels_list ;;
  match find_label labels name with
  | Some (c :: id) => ret (c :: id)
  | _ => label <- labels_create name ;; ret (label_id label)
  end.

(** Lines 100-112. *)
Definition move_to_label (msg_id name : str) : M unit :=
  id <- ensure_label name ;;
  messages_modify_add msg_id id.

(** Line 163: [categorize_email] asks the subprocess and never touches
    the mailbox. *)
Definition classify (text : str) (labels : list str) : M str :=
  fun w => (V2.categorize_email (ollama env (trace w)) text labels, w).

Definition clock : M Z := fun w => (Ok (elapsed env (trace w)), w).

(** Lines 133-189: one turn of the loop, from the rows so far to the rows
    with this message's row added. *)
Definition process_message (labels_list : list str) (rows : list (list Cell))
  (id : str) : M (list (list Cell)) :=
  full_msg <- messages_get id ;;
  let hs := V2.headers (V2.payload full_msg) in
  let subject := V2.header hs "Subject" "(No Subject)" in
  let sender_full := V2.header hs "From" "(Unknown Sender)" in
  let sender := V2.parse_email sender_full in
  let to_full := V2.header hs "To" [] in
  let to_email := snd (V2.parse_email to_full) in
  let body := V2.get_email_body (b64decode env) (V2.payload full_msg) in
  let forwarded := V2.forwarded subject in
  let att := V2.attachments (V2.payload full_msg) in
  let section := V2.get_section (label_ids_of full_msg) in
  category <- classify (subject ++ [nl] ++ body) labels_list ;;
  (if negb (str_eqb category "Other") then move_to_label id category
   else ret tt) ;;;
  time_taken <- clock ;;
  let date := CDate (V2.internalDate full_msg) in
  let rows :=
    rows ++ [[CStr (fst sender); CStr (snd sender); CStr to_email;
              CStr forwarded; CStr subject; CStr body; CStr section;
              CStr (fst att); CStr (snd att); date;
              CNum time_taken; CStr category]] in
  messages_modify_remove id "UNREAD" ;;;
  ret rows.

(** Lines 131-189: the loop. *)
Fixpoint process_all (labels_list : list str) (messages : list str)
  (rows : list (list Cell)) : M (list (list Cell)) :=
  match messages with
  | [] => ret rows
  | id :: messages' =>
      rows' <- process_message labels_list rows id ;;
      process_all labels_list messages' rows'
  end.

Inductive Report :=
| NoUnread
| Processed (n : nat).

(** Lines 191-203. *)
Definition append_to_csv (rows : list (list Cell)) : M unit :=
  fun w =>
    match csv w with
    | Some _ =>
        (df_existing <- read_csv ;;
         to_csv (concat df_existing (new_frame rows))) w
    | None => to_csv (new_frame rows) w
    end.

(** Lines 115-204. *)
Definition fetch_and_process_emails : M Report :=
  fun w =>
    let labels_list :=
      match config w with
      | Some l => l
      | None => []
      end in
    (messages <- messages_list ;;
     match messages with
     | [] => ret NoUnread
     | _ :: _ =>
         rows <- process_all labels_list messages [] ;;
         append_to_csv rows ;;;
         ret (Processed (length rows))
     end) w.

End Pipeline.

(** * What the specification speaks of, and sample inputs *)

(** The section the specification names: the first of the four category
    identifiers, in priority order, that the message carries. *)
Definition section_priority : list (str * str) :=
  [(lit "CATEGORY_SOCIAL", lit "Social");
   (lit "CATEGORY_PROMOTIONS", lit "Promotions");
   (lit "CATEGORY_UPDATES", lit "Updates");
   (lit "CATEGORY_FORUMS", lit "Forums")].

Definition first_match_section (label_ids : list str) : str :=
  match find (fun p => mem (fst p) label_ids) section_priority with
  | Some p => snd p
  | None => "Primary"
  end.

Definition work_personal : list str := [lit "Work"; lit "Personal"].

(** A subprocess that answers a candidate name in another letter case
    when the mail mentions a meeting, and wraps a candidate name in a
    sentence otherwise. *)
Definition sloppy_run (model prompt : str) : Result str :=
  if contains "meeting" prompt then Ok ("work" ++ [nl])
  else Ok (lit "Label: Personal").


(** The forwarded subject of the specification: the word [Fwd] or [FW] in any
    letter case, a colon right after it, and before it the start of the
    subject or a character that is not a word character. *)
Definition forward_marker (w : str) : Prop :=
  lower w = "fwd" \/ lower w = "fw".

Definition ends_outside_word (pre : str) : Prop :=
  forall pre' c, pre = pre' ++ [c] -> is_word c = false.

Definition whole_word_forward (subject : str) : Prop :=
  exists pre w post,
    subject = pre ++ w ++ ":" ++ post
    /\ forward_marker w
    /\ ends_outside_word pre.

(** The character before the position that follows [pre], when [prev]
    is the character before [pre]. *)
Fixpoint last_before (prev : option ascii) (pre : str) : option ascii :=
  match pre with
  | [] => prev
  | c :: pre' => last_before (Some c) pre'
  end.

(** [t] is [s] trimmed of the characters in the class [p]: [s] is [t]
    between two runs of such characters, and [t] neither starts nor ends
    with one. *)
Definition starts_outside (p : ascii -> bool) (t : str) : Prop :=
  match t with
  | c :: _ => p c = false
  | [] => True
  end.



(** The file names a payload carries, in part order. *)
Fixpoint filenames (ps : list V2.Part) : list str :=
  match ps with
  | [] => []
  | part :: ps' =>
      match V2.truthy_filename part with
      | Some f => f :: filenames ps'
      | None => filenames ps'
      end
  end.

Definition payload_filenames (p : V2.Payload) : list str :=
  match V2.parts p with
  | Some ps => filenames ps
  | None => []
  end.

Definition attachment_part (name : str) : V2.Part :=
  {| V2.mimeType := "application/pdf"; V2.part_data := None;
     V2.filename := Some name |}.

Definition text_part (data : str) : V2.Part :=
  {| V2.mimeType := "text/plain"; V2.part_data := Some data;
     V2.filename := Some [] |}.

(** A message with a text part and one attachment whose file name ends
    in a comma. *)
Definition payload_draft : V2.Payload :=
  {| V2.headers := [(lit "Subject", lit "draft for review")];
     V2.body_data := None;
     V2.parts := Some [text_part "aGk="; attachment_part "draft,"] |}.

(** No remote call fails. *)
Definition no_fault (env : Env) : Prop :=
  forall tr c, fault env tr c = false.



(** A subprocess that answers [Invoices] on mail about an invoice and
    cannot be started otherwise. *)
Definition invoice_run (model prompt : str) : Result str :=
  if contains "invoice" prompt then Ok ("Invoices" ++ [nl])
  else Raise (OSError "ollama").

(** An environment in which only the calls chosen by [failing] fail; the
    service numbers new labels by the count of labels it holds. *)
Definition sample_env (failing : Call -> bool) : Env :=
  {| fault := fun _ c => failing c;
     new_label_id := fun ls _ => "Label_" ++ repeat "I"%char (S (length ls));
     b64decode := fun data => Ok data;
     ollama := fun _ => invoice_run;
     elapsed := fun tr => Z.of_nat (length tr) |}.

Definition quiet_env : Env := sample_env (fun _ => false).

Definition unread_message (id subject sender : str) : V2.Message :=
  {| V2.msg_id := id;
     V2.payload :=
       {| V2.headers := [(lit "Subject", subject); (lit "From", sender)];
          V2.body_data := Some (lit "aGk=");
          V2.parts := None |};
     V2.labelIds := Some [lit "INBOX"; lit "UNREAD"];
     V2.internalDate := 1700000000000 |}.

(** A mailbox with two unread messages, no stored table yet, and the one
    candidate label [Invoices]. *)
Definition two_unread : World :=
  {| mailbox := [unread_message "m1" "Fwd: invoice 7" "Jane Doe <jane@x.com>";
                 unread_message "m2" "hello" "plain@x.com"];
     remote_labels := [{| label_id := "INBOX"; label_name := "INBOX" |}];
     csv := None;
     config := Some [lit "Invoices"];
     trace := [] |}.

Definition sample_row (who category : str) : list Cell :=
  [CStr []; CStr who; CStr []; CStr "No"; CStr "hello"; CStr "hi";
   CStr "Primary"; CStr "No"; CStr []; CDate 1700000000000; CNum 12;
   CStr category].


(** The ids [messages().list] returns for a mailbox: the batch. *)
Definition batch (w : World) : list str :=
  firstn 10 (map V2.msg_id (filter is_unread (mailbox w))).

(** Whether the mailbox holds message [id] with the unread marker. *)
Definition unread_of (mb : list V2.Message) (id : str) : bool :=
  existsb (fun m => (has_id id m && is_unread m)%bool) mb.

Definition present (mb : list V2.Message) (id : str) : bool :=
  existsb (has_id id) mb.

(** The calls one turn of the loop can make for message [id]. *)
Definition call_for (id : str) (c : Call) : bool :=
  match c with
  | MessagesGet i => str_eqb i id
  | MessagesModifyAdd i _ => str_eqb i id
  | MessagesModifyRemove i _ => str_eqb i id
  | LabelsList => true
  | LabelsCreate _ => true
  | MessagesList => false
  | ReadCsv => false
  | WriteCsv => false
  end.

(** [mb'] is [mb] with at most the label ids of message [id] changed. *)
Definition only_id (id : str) (mb mb' : list V2.Message) : Prop :=
  mb' = mb \/ exists g, mb' = update_label_ids g id mb.

(** What one turn of the loop for message [id] may change. *)
Definition frame (id : str) (w w' : World) : Prop :=
  csv w' = csv w
  /\ config w' = config w
  /\ only_id id (mailbox w) (mailbox w')
  /\ exists calls,
       trace w' = trace w ++ calls /\ forallb (call_for id) calls = true.

Definition frames {A} (id : str) (m : M A) : Prop :=
  forall w, frame id w (snd (m w)).

(** What the loop over the messages [ids] may change. *)
Definition frame_all (ids : list str) (w w' : World) : Prop :=
  csv w' = csv w
  /\ config w' = config w
  /\ (forall i, present (mailbox w') i = present (mailbox w) i)
  /\ (forall i, ~ In i ids ->
                unread_of (mailbox w') i = unread_of (mailbox w) i)
  /\ exists calls,
       trace w' = trace w ++ calls
       /\ forall c, In c calls -> exists id, In id ids /\ call_for id c = true.





Definition str_in_dec (i : str) (ids : list str) : {In i ids} + {~ In i ids} :=
  in_dec (list_eq_dec ascii_dec) i ids.

(** The stripped output of the subprocess on the prompt for [text], the
    empty string when it raises. *)
Definition strip_output (run : str -> str -> Result str) (text : str)
  (labels : list str) : str :=
  match run "mistral" (V2.categorize_prompt text labels) with
  | Ok out => strip out
  | Raise _ => []
  end.

(** * Further notions for the scripts *)

(** The body a decoder result stands for: its text, or the empty string
    when it raised. *)
Definition or_empty (r : Result str) : str :=
  match r with
  | Ok b => b
  | Raise _ => []
  end.

(** A part that line 45 accepts: plain text with body data. *)
Definition plain_with_data (part : V2.Part) : bool :=
  (str_eqb (V2.mimeType part) "text/plain"
   && match V2.part_data part with
      | Some _ => true
      | None => false
      end)%bool.

(** The label ids carried by the messages with id [i]. *)
Definition labels_of (mb : list V2.Message) (i : str) : list str :=
  flat_map label_ids_of (filter (has_id i) mb).

(** What a run may do to the mailbox when it works on the messages
    [ids]: no message appears, disappears or moves, payloads stay,
    messages with other ids stay as they are, and no label other than
    the unread marker is taken off any message. *)
Definition mailbox_kept (ids : list str) (mb mb' : list V2.Message) : Prop :=
  map V2.msg_id mb' = map V2.msg_id mb
  /\ map V2.payload mb' = map V2.payload mb
  /\ (forall i, ~ In i ids -> filter (has_id i) mb' = filter (has_id i) mb)
  /\ (forall i l, l <> lit "UNREAD" ->
                  In l (labels_of mb i) -> In l (labels_of mb' i)).

Definition keeps_mailbox {A} (ids : list str) (m : M A) : Prop :=
  forall w, mailbox_kept ids (mailbox w) (mailbox (snd (m w))).

(** A change of label ids that takes off nothing but the unread
    marker. *)
Definition gentle (g : list str -> list str) : Prop :=
  forall l x, x <> lit "UNREAD" -> In x l -> In x (g l).

Definition add_label (label : str) (l : list str) : list str :=
  if mem label l then l else l ++ [label].

(** A row as the loop of [main_working_2.py] builds it for the candidate
    labels [labels]: the twelve cells of lines 177-182, with the flags,
    the section and the category in their ranges. *)
Definition record_ok (labels : list str) (row : list Cell) : Prop :=
  exists name email to_email forwarded subject body section attachment names
         date taken category,
    row = [CStr name; CStr email; CStr to_email; CStr forwarded; CStr subject;
           CStr body; CStr section; CStr attachment; CStr names; CDate date;
           CNum taken; CStr category]
    /\ (forwarded = "Yes" \/ forwarded = "No")
    /\ In section (map lit ["Primary"; "Social"; "Promotions"; "Updates";
                           "Forums"])
    /\ (attachment = "Yes" \/ (attachment = "No" /\ names = []))
    /\ (In category labels \/ category = "Other").

(** [config.get("Label", [])] of line 120, or the empty list of line 122. *)
Definition config_labels (w : World) : list str :=
  match config w with
  | Some l => l
  | None => []
  end.

(** The calls of a turn of the loop that puts no label. *)
Definition plain_turn (id : str) : list Call :=
  [MessagesGet id; MessagesModifyRemove id "UNREAD"].

(** The classifier subprocess cannot be run. *)
Definition classifier_down (env : Env) : Prop :=
  forall tr model prompt, exists e, ollama env tr model prompt = Raise e.

Definition category_other (row : list Cell) : Prop :=
  nth 11 row CNaN = CStr "Other".

(** An environment without remote faults whose classifier always
    raises. *)
Definition down_env : Env :=
  {| fault := fun _ _ => false;
     new_label_id := fun ls _ => "Label_" ++ repeat "I"%char (S (length ls));
     b64decode := fun data => Ok data;
     ollama := fun _ _ _ => Raise (OSError "ollama");
     elapsed := fun tr => Z.of_nat (length tr) |}.

(** Lines 156-161 of [main_working_1.py]. *)
Definition COLUMNS_V1 : list str :=
  map lit ["From Name"; "From Email"; "To Email"; "CC Email"; "BCC Email";
           "Forwarded"; "Subject"; "Body"; "Summary"; "Attachment";
           "AttachmentNames"; "Section"; "Date"; "TimeTaken"].

(** * [agent_b.py] *)

Module AgentB.

(** A Python [dict] with string keys: its items in insertion order.
    [dict_set] is [d[k] = v]: an existing key keeps its place and takes
    the new value, a new key goes to the end. *)
Fixpoint dict_set {V} (k : str) (v : V) (d : list (str * V))
  : list (str * V) :=
  match d with
  | [] => [(k, v)]
  | (k', v') :: d' =>
      if str_eqb k' k then (k', v) :: d' else (k', v') :: dict_set k v d'
  end.

(** [d.get(k)] *)
Fixpoint dict_get {V} (k : str) (d : list (str * V)) : option V :=
  match d with
  | [] => None
  | (k', v') :: d' => if str_eqb k' k then Some v' else dict_get k d'
  end.

Definition keys {V} (d : list (str * V)) : list str := map fst d.
Definition values {V} (d : list (str * V)) : list V := map snd d.

(** [dict.fromkeys(l)] *)
Definition fromkeys (l : list str) : list (str * unit) :=
  fold_left (fun d x => dict_set x tt d) l [].

(** The configuration document.  A field is [None] when the key is
    missing; [EmailMap] holds the items of the object in order. *)
Record Config := {
  Label : option (list str);
  EmailMap : option (list (str * str));
  Friends : option (list str);
  HighPriorityEmails : option (list str)
}.

(** [config.get(key, [])] *)
Definition get_list {A} (field : option (list A)) : list A :=
  match field with
  | Some l => l
  | None => []
  end.

(** Lines 22-26. *)
Definition clean_duplicates (config : Config) : Config :=
  {| Label := Some (keys (fromkeys (get_list (Label config))));
     EmailMap := EmailMap config;
     Friends := Some (keys (fromkeys (get_list (Friends config))));
     HighPriorityEmails :=
       Some (keys (fromkeys (get_list (HighPriorityEmails config)))) |}.

(** Lines 31-35, and the same loop for friends and high priority
    addresses: [seen[x.lower()] = x] for every [x], then the values. *)
Definition keep_last_spelling (l : list str) : list str :=
  values (fold_left (fun seen x => dict_set (lower x) x seen) l []).

(** Lines 52-56. *)
Definition lower_keys (emailmap : list (str * str)) : list (str * str) :=
  fold_left (fun new_map kv => dict_set (lower (fst kv)) (snd kv) new_map)
    emailmap [].

(** Lines 29-58. *)
Definition normalize_case (config : Config) : Config :=
  {| Label := Some (keep_last_spelling (get_list (Label config)));
     EmailMap := Some (lower_keys (get_list (EmailMap config)));
     Friends := Some (keep_last_spelling (get_list (Friends config)));
     HighPriorityEmails :=
       Some (keep_last_spelling (get_list (HighPriorityEmails config))) |}.

(** [[\s\S]]: any character. *)
Definition any (c : ascii) : bool := true.

(** The pattern of line 95 tried at the head of [s]: an opening brace,
    as many characters as possible, a closing brace.  The result is the
    match and what follows it. *)
Definition block_at (s : str) : option (str * str) :=
  Regex.char "{"
    (fun r =>
       Regex.greedy_star any
         (fun g r2 => Regex.char "}" (fun r3 => Some ("{" ++ g ++ "}", r3)) r2)
         [] r)
    s.

(** [re.findall] with that pattern: the matches from left to right, each
    search starting where the last match ended.  A match is not empty, so
    a fuel of the length of [s] plus one is never used up. *)
Fixpoint findall_fuel (n : nat) (s : str) : list str :=
  match n with
  | O => []
  | S n' =>
      match block_at s with
      | Some (m, rest) => m :: findall_fuel n' rest
      | None =>
          match s with
          | [] => []
          | _ :: s' => findall_fuel n' s'
          end
      end
  end.

Definition findall (s : str) : list str := findall_fuel (S (length s)) s.

(** [match[-1]] when [match] is not empty. *)
Definition last_match (matches : list str) : option str :=
  match rev matches with
  | [] => None
  | m :: _ => Some m
  end.

Definition quoted (s : str) : str := dquote :: s ++ [dquote].

(** The prompt of lines 62-83; [dumped] is [json.dumps(config, indent=2)]. *)
Definition instruction_prompt (instruction dumped : str) : str :=
  [nl]
  ++ "You are a JSON editing assistant. You will ALWAYS return ONLY valid JSON (no explanations, no markdown, no text)." ++ [nl]
  ++ "The JSON must have exactly these four keys:" ++ [nl]
  ++ "- " ++ quoted "Label" ++ " (list of strings)" ++ [nl]
  ++ "- " ++ quoted "EmailMap" ++ " (object mapping emails to labels)" ++ [nl]
  ++ "- " ++ quoted "Friends" ++ " (list of emails)" ++ [nl]
  ++ "- " ++ quoted "HighPriorityEmails" ++ " (list of emails)" ++ [nl]
  ++ [nl]
  ++ "Instruction: " ++ quoted instruction ++ [nl]
  ++ [nl]
  ++ "Current Config:" ++ [nl]
  ++ dumped ++ [nl]
  ++ [nl]
  ++ "Update Rules:" ++ [nl]
  ++ "- If asked to add/remove a label, update " ++ quoted "Label"
  ++ ". Removing a label also removes any EmailMap entries pointing to it."
  ++ [nl]
  ++ "- If asked to add/remove an email mapping, update " ++ quoted "EmailMap"
  ++ "." ++ [nl]
  ++ "- If asked to add/remove a friend, update " ++ quoted "Friends" ++ "."
  ++ [nl]
  ++ "- If asked to add/remove a high priority email, update "
  ++ quoted "HighPriorityEmails" ++ "." ++ [nl]
  ++ "- Removals are case-insensitive." ++ [nl]
  ++ "- Never introduce duplicates." ++ [nl]
  ++ "- Return the FULL updated JSON object ONLY." ++ [nl].

(** What [parse_instruction] does not control: the subprocess (its
    answer may change from call to call, so it sees how many documents
    were saved so far), [json.dumps] and [json.loads] ([None] is
    [JSONDecodeError]). *)
Record Json := {
  run : nat -> str -> str -> Result str;
  dumps : Config -> str;
  loads : str -> option Config
}.

(** Lines 61-104.  A subprocess that cannot be run raises out of the
    function; a block that is not JSON leaves the configuration as it
    is. *)
Definition parse_instruction (js : Json) (turn : nat) (instruction : str)
  (config : Config) : Result Config :=
  bind_result
    (run js turn "mistral" (instruction_prompt instruction (dumps js config)))
    (fun stdout =>
       let raw_output := strip stdout in
       match last_match (findall raw_output) with
       | Some last_block =>
           match loads js last_block with
           | Some parsed => Ok parsed
           | None => Ok config
           end
       | None => Ok config
       end).

(** Lines 107-119: the loop over the lines typed in.  The result is how
    the loop ends ([input] raises when the lines run out) and the
    documents [save_config] wrote, in order. *)
Fixpoint main_loop (js : Json) (inputs : list str) (config : Config)
  (saved : list Config) : Result unit * list Config :=
  match inputs with
  | [] => (Raise (OSError "EOF when reading a line"), saved)
  | instruction :: inputs' =>
      if mem (lower instruction) [lit "exit"; lit "quit"] then (Ok tt, saved)
      else
        match parse_instruction js (length saved) instruction config with
        | Ok updated_config =>
            let updated_config :=
              normalize_case (clean_duplicates updated_config) in
            main_loop js inputs' updated_config (saved ++ [updated_config])
        | Raise e => (Raise e, saved)
        end
  end.

End AgentB.

(** The first occurrences in [l] of the strings that are not in [seen],
    in the order of [l]. *)
Fixpoint firsts (seen l : list str) : list str :=
  match l with
  | [] => []
  | x :: l' =>
      if mem x seen then firsts seen l' else x :: firsts (seen ++ [x]) l'
  end.

(** No two strings of [l] are equal up to letter case. *)
Definition case_unique (l : list str) : Prop := NoDup (map lower l).

(** [y] is the last string of [l] with its spelling up to letter case. *)
Definition last_of_its_case (l : list str) (y : str) : Prop :=
  exists pre post,
    l = pre ++ y :: post /\ forall z, In z post -> lower z <> lower y.

(** The value of the last item of [m] whose key is [k] up to letter
    case. *)
Definition last_value (m : list (str * str)) (k : str) : option str :=
  match find (fun kv => str_eqb (lower (fst kv)) (lower k)) (rev m) with
  | Some kv => Some (snd kv)
  | None => None
  end.

(** A configuration as a turn of the loop of [agent_b.py] leaves it. *)
Definition normalized (c : AgentB.Config) : Prop :=
  exists labels emailmap friends high,
    c = {| AgentB.Label := Some labels;
           AgentB.EmailMap := Some emailmap;
           AgentB.Friends := Some friends;
           AgentB.HighPriorityEmails := Some high |}
    /\ case_unique labels /\ case_unique friends /\ case_unique high
    /\ NoDup (AgentB.keys emailmap)
    /\ Forall (fun k => lower k = k) (AgentB.keys emailmap).

(** A dictionary filled in a loop: [d[key(x)] = val(x)] for every [x] of
    [l] in turn. *)
Definition fill {A V} (key : A -> str) (val : A -> V) (l : list A)
  (d : list (str * V)) : list (str * V) :=
  fold_left (fun d x => AgentB.dict_set (key x) (val x) d) l d.
(** * Properties *)

(** ** Strings *)

Lemma str_eqb_eq (a b : str) : str_eqb a b = true <-> a = b.
Proof.
  revert b; induction a as [|x a IH]; intros [|y b]; simpl;
    try (split; [discriminate | discriminate]); try tauto.
  rewrite andb_true_iff, Ascii.eqb_eq, IH.
  split; [intros [-> ->]; reflexivity | intros H; inversion H; auto].
Qed.

Lemma str_eqb_refl (a : str) : str_eqb a a = true.
Proof. apply str_eqb_eq; reflexivity. Qed.

Lemma str_eqb_neq (a b : str) : str_eqb a b = false <-> a <> b.
Proof.
  rewrite <- str_eqb_eq. destruct (str_eqb a b); split; congruence.
Qed.

Lemma mem_In (x : str) (l : list str) : mem x l = true <-> In x l.
Proof.
  unfold mem. rewrite existsb_exists. split.
  - intros [y [Hy E]]. apply str_eqb_eq in E. subst. exact Hy.
  - intros H. exists x. split; [exact H | apply str_eqb_refl].
Qed.

Lemma mem_not_In (x : str) (l : list str) : mem x l = false <-> ~ In x l.
Proof.
  rewrite <- mem_In. destruct (mem x l); split; congruence.
Qed.

Lemma char_in_In (chars : str) (c : ascii) :
  char_in chars c = true <-> In c chars.
Proof.
  unfold char_in. rewrite existsb_exists. split.
  - intros [y [Hy E]]. apply Ascii.eqb_eq in E. subst. exact Hy.
  - intros H. exists c. split; [exact H | apply Ascii.eqb_refl].
Qed.

(** ** Section of a message (C7) *)

(** C7: [get_section] returns the first match in the priority order
    Social, Promotions, Updates, Forums, and Primary when the list holds
    none of the four category identifiers; the list with the Promotions
    and the Social identifier gives Social. *)
Theorem get_section_first_match (label_ids : list str) :
  V2.get_section label_ids = first_match_section label_ids
  /\ V1.get_section label_ids = V2.get_section label_ids
  /\ ((In (lit "CATEGORY_SOCIAL") label_ids
       /\ V2.get_section label_ids = "Social")
      \/ (~ In (lit "CATEGORY_SOCIAL") label_ids
          /\ In (lit "CATEGORY_PROMOTIONS") label_ids
          /\ V2.get_section label_ids = "Promotions")
      \/ (~ In (lit "CATEGORY_SOCIAL") label_ids
          /\ ~ In (lit "CATEGORY_PROMOTIONS") label_ids
          /\ In (lit "CATEGORY_UPDATES") label_ids
          /\ V2.get_section label_ids = "Updates")
      \/ (~ In (lit "CATEGORY_SOCIAL") label_ids
          /\ ~ In (lit "CATEGORY_PROMOTIONS") label_ids
          /\ ~ In (lit "CATEGORY_UPDATES") label_ids
          /\ In (lit "CATEGORY_FORUMS") label_ids
          /\ V2.get_section label_ids = "Forums")
      \/ (~ In (lit "CATEGORY_SOCIAL") label_ids
          /\ ~ In (lit "CATEGORY_PROMOTIONS") label_ids
          /\ ~ In (lit "CATEGORY_UPDATES") label_ids
          /\ ~ In (lit "CATEGORY_FORUMS") label_ids
          /\ V2.get_section label_ids = "Primary"))
  /\ V2.get_section [lit "CATEGORY_PROMOTIONS"; lit "CATEGORY_SOCIAL"]
     = "Social".
Proof.
  split; [|split; [reflexivity|split; [|reflexivity]]].
  - unfold V2.get_section, first_match_section, section_priority. simpl.
    repeat match goal with
           | |- context [mem ?x label_ids] => destruct (mem x label_ids)
           end; reflexivity.
  - unfold V2.get_section.
    destruct (mem "CATEGORY_SOCIAL" label_ids) eqn:E1;
      [left; split; [apply mem_In; exact E1 | reflexivity] | right].
    apply mem_not_In in E1.
    destruct (mem "CATEGORY_PROMOTIONS" label_ids) eqn:E2;
      [left; repeat split; [exact E1 | apply mem_In; exact E2] | right].
    apply mem_not_In in E2.
    destruct (mem "CATEGORY_UPDATES" label_ids) eqn:E3;
      [left; repeat split; [exact E1 | exact E2 | apply mem_In; exact E3]
      | right].
    apply mem_not_In in E3.
    destruct (mem "CATEGORY_FORUMS" label_ids) eqn:E4;
      [left; repeat split;
       [exact E1 | exact E2 | exact E3 | apply mem_In; exact E4]
      | right].
    apply mem_not_In in E4. repeat split; assumption.
Qed.

(** ** The classifier (C4, C10) *)

(** Whatever the subprocess does, [categorize_email] returns. *)
Lemma categorize_email_ok (run : str -> str -> Result str)
  (text : str) (labels : list str) :
  exists category,
    V2.categorize_email run text labels = Ok category
    /\ (category = strip_output run text labels /\ In category labels
        \/ category = "Other").
Proof.
  unfold V2.categorize_email, strip_output.
  destruct (run "mistral" (V2.categorize_prompt text labels)) as [out|e];
    simpl.
  - destruct (mem (strip out) labels) eqn:E; simpl.
    + exists (strip out). split; [reflexivity|]. left.
      split; [reflexivity | apply mem_In; exact E].
    + exists (lit "Other"). split; [reflexivity | right; reflexivity].
  - exists (lit "Other"). split; [reflexivity | right; reflexivity].
Qed.

(** C4: whatever the subprocess does (any output, or an exception),
    [categorize_email] returns and does not raise, and what it returns is
    one of the candidate labels or the string Other; with the candidates
    Work and Personal it is one of Work, Personal and Other. *)
Theorem categorize_email_total (run : str -> str -> Result str)
  (text : str) (labels : list str) :
  (exists category,
     V2.categorize_email run text labels = Ok category
     /\ (In category labels \/ category = "Other"))
  /\ (exists category,
        V2.categorize_email run text work_personal = Ok category
        /\ (category = "Work" \/ category = "Personal"
            \/ category = "Other")).
Proof.
  split.
  - destruct (categorize_email_ok run text labels) as [c [E [[_ H]|H]]];
      exists c; auto.
  - destruct (categorize_email_ok run text work_personal)
      as [c [E [[_ [H|[H|[]]]]|H]]]; exists c; auto.
Qed.

(** C10: the membership test is exact: when the stripped output is not
    literally one of the candidate labels, the category is Other. *)
Theorem categorize_email_exact (run : str -> str -> Result str)
  (text : str) (labels : list str) (stdout : str)
  (Hrun : run "mistral" (V2.categorize_prompt text labels) = Ok stdout)
  (Hnot : ~ In (strip stdout) labels) :
  V2.categorize_email run text labels = Ok (lit "Other").
Proof.
  unfold V2.categorize_email. rewrite Hrun. simpl.
  apply mem_not_In in Hnot. rewrite Hnot. reflexivity.
Qed.

Lemma categorize_email_exact_witness :
  V2.categorize_email sloppy_run "meeting at noon" work_personal
    = Ok (lit "Other")
  /\ V2.categorize_email sloppy_run "dinner on friday" work_personal
    = Ok (lit "Other").
Proof.
  split.
  - apply (@categorize_email_exact sloppy_run "meeting at noon" work_personal
             ("work" ++ [nl])).
    + reflexivity.
    + vm_compute. intros [H|[H|[]]]; discriminate H.
  - apply (@categorize_email_exact sloppy_run "dinner on friday" work_personal
             "Label: Personal").
    + reflexivity.
    + vm_compute. intros [H|[H|[]]]; discriminate H.
Defined.

(** ** The forwarded flag (C1) *)

Lemma lower_nil (w : str) : lower w = [] -> w = [].
Proof. destruct w; [reflexivity | discriminate]. Qed.

Lemma literal_ci_spec (p s r : str) :
  Regex.literal_ci p s = Some r <-> exists w, s = w ++ r /\ lower w = lower p.
Proof.
  revert s; induction p as [|x p IH]; intros s; simpl.
  - split.
    + intros H; inversion H; subst. exists []. split; reflexivity.
    + intros [w [-> Hw]]. apply lower_nil in Hw. subst. reflexivity.
  - destruct s as [|y s].
    + split; [discriminate|].
      intros [w [Hs Hw]]. destruct w; simpl in *; discriminate.
    + unfold Regex.ci_eqb. destruct (Ascii.eqb_spec (lower_char x) (lower_char y)) as [E|E].
      * rewrite IH. split.
        -- intros [w [-> Hw]]. exists (y :: w). simpl. rewrite Hw, E. auto.
        -- intros [w [Hs Hw]]. destruct w as [|c w]; [discriminate|].
           simpl in *. inversion Hs; subst. inversion Hw. exists w. auto.
      * split; [discriminate|].
        intros [w [Hs Hw]]. destruct w as [|c w]; [discriminate|].
        simpl in *. inversion Hs; subst. inversion Hw. congruence.
Qed.

Lemma then_colon_spec (p s : str) :
  Regex.then_colon (Regex.literal_ci p s) = true
  <-> exists w post, s = w ++ ":" ++ post /\ lower w = lower p.
Proof.
  unfold Regex.then_colon. split.
  - destruct (Regex.literal_ci p s) as [[|c r]|] eqn:E; try discriminate.
    intros Hc. apply Ascii.eqb_eq in Hc. subst c.
    apply literal_ci_spec in E. destruct E as [w [-> Hw]].
    exists w, r. auto.
  - intros [w [post [-> Hw]]].
    assert (E : Regex.literal_ci p (w ++ ":" ++ post) = Some (":" ++ post))
      by (apply literal_ci_spec; exists w; auto).
    rewrite E. reflexivity.
Qed.

Lemma lower_f_is_word (c : ascii) : lower_char c = "f"%char -> is_word c = true.
Proof.
  destruct c as [[] [] [] [] [] [] [] []]; vm_compute; congruence.
Qed.

Lemma forward_marker_head (w rest : str) :
  forward_marker w -> Regex.is_word_opt (hd_error (w ++ rest)) = true.
Proof.
  intros [H|H]; (destruct w as [|c w]; [discriminate|]);
    simpl in *; inversion H; apply lower_f_is_word; assumption.
Qed.

Lemma fwd_at_spec (prev : option ascii) (s : str) :
  Regex.fwd_at prev s = true
  <-> Regex.is_word_opt prev = false
      /\ exists w post, s = w ++ ":" ++ post /\ forward_marker w.
Proof.
  unfold Regex.fwd_at, Regex.word_boundary.
  rewrite andb_true_iff, orb_true_iff, !then_colon_spec. split.
  - intros [Hb Hm].
    assert (Hw : exists w post, s = w ++ ":" ++ post /\ forward_marker w).
    { destruct Hm as [[w [post [-> Hw]]]|[w [post [-> Hw]]]];
        exists w, post; (split; [reflexivity|]);
        [left | right]; exact Hw. }
    split; [|exact Hw].
    destruct Hw as [w [post [-> Hw]]].
    rewrite (forward_marker_head w _ Hw) in Hb.
    destruct (Regex.is_word_opt prev); [discriminate | reflexivity].
  - intros [Hp [w [post [-> Hw]]]]. split.
    + rewrite (forward_marker_head w _ Hw), Hp. reflexivity.
    + destruct Hw as [Hw|Hw]; [left | right]; exists w, post; auto.
Qed.

Lemma search_fwd_spec (s : str) (prev : option ascii) :
  Regex.search_fwd prev s = true
  <-> exists pre rest,
        s = pre ++ rest /\ Regex.fwd_at (last_before prev pre) rest = true.
Proof.
  revert prev; induction s as [|c s IH]; intros prev; simpl;
    rewrite orb_true_iff.
  - split.
    + intros [H|H]; [|discriminate]. exists [], []. auto.
    + intros [pre [rest [Hs H]]]. symmetry in Hs.
      apply app_eq_nil in Hs. destruct Hs; subst. left. exact H.
  - rewrite IH. split.
    + intros [H|[pre [rest [-> H]]]].
      * exists [], (c :: s). auto.
      * exists (c :: pre), rest. auto.
    + intros [pre [rest [Hs H]]]. destruct pre as [|c' pre]; simpl in *.
      * subst rest. left. exact H.
      * inversion Hs; subst. right. exists pre, rest. auto.
Qed.

Lemma last_before_snoc (prev : option ascii) (pre : str) (c : ascii) :
  last_before prev (pre ++ [c]) = Some c.
Proof. revert prev; induction pre; intros; simpl; auto. Qed.

Lemma ends_outside_word_spec (pre : str) :
  Regex.is_word_opt (last_before None pre) = false <-> ends_outside_word pre.
Proof.
  unfold ends_outside_word.
  destruct (rev pre) as [|c r] eqn:E.
  - apply (f_equal (@rev ascii)) in E. rewrite rev_involutive in E.
    simpl in E. subst. simpl. split; [|reflexivity].
    intros _ pre' c H. destruct pre'; discriminate.
  - apply (f_equal (@rev ascii)) in E. rewrite rev_involutive in E.
    simpl in E. subst. rewrite last_before_snoc. simpl. split.
    + intros H pre' c' E. apply app_inj_tail in E. destruct E; subst. exact H.
    + intros H. apply (H (rev r)). reflexivity.
Qed.

(** The regular expression of the first version decides the forwarded
    subject of the specification. *)
Lemma forwarded_v1_whole_word (subject : str) :
  V1.forwarded subject = "Yes" <-> whole_word_forward subject.
Proof.
  unfold V1.forwarded, whole_word_forward.
  destruct (Regex.search_fwd None subject) eqn:E.
  - split; [intros _ | reflexivity].
    apply search_fwd_spec in E. destruct E as [pre [rest [-> H]]].
    apply fwd_at_spec in H. destruct H as [Hp [w [post [-> Hw]]]].
    exists pre, w, post. repeat split; auto.
    apply ends_outside_word_spec. exact Hp.
  - split; [discriminate|].
    intros [pre [w [post [-> [Hw Hp]]]]].
    assert (T : Regex.search_fwd None (pre ++ w ++ ":" ++ post) = true).
    { apply search_fwd_spec. exists pre, (w ++ ":" ++ post). split; auto.
      apply fwd_at_spec. split.
      - apply ends_outside_word_spec. exact Hp.
      - exists w, post. auto. }
    congruence.
Qed.

Lemma starts_with_spec (p s : str) :
  starts_with p s = true <-> exists post, s = p ++ post.
Proof.
  revert s; induction p as [|x p IH]; intros s; simpl.
  - split; [intros _; exists s; reflexivity | reflexivity].
  - destruct s as [|y s].
    + split; [discriminate | intros [post H]; discriminate].
    + rewrite andb_true_iff, Ascii.eqb_eq, IH. split.
      * intros [-> [post ->]]. exists post. reflexivity.
      * intros [post H]. inversion H. split; [reflexivity|].
        exists post. reflexivity.
Qed.

Lemma contains_spec (needle hay : str) :
  contains needle hay = true <-> exists pre post, hay = pre ++ needle ++ post.
Proof.
  induction hay as [|c hay IH]; simpl.
  - rewrite starts_with_spec. split.
    + intros [post H]. exists [], post. exact H.
    + intros [pre [post H]]. destruct pre; [|discriminate].
      exists post. exact H.
  - rewrite orb_true_iff, starts_with_spec, IH. split.
    + intros [[post H]|[pre [post ->]]].
      * exists [], post. exact H.
      * exists (c :: pre), post. reflexivity.
    + intros [pre [post H]]. destruct pre as [|c' pre].
      * left. exists post. exact H.
      * right. inversion H. exists pre, post. reflexivity.
Qed.

(** What the second version decides: the subject holds [Fwd:] or [FW:]
    somewhere, spelled exactly so. *)
Lemma forwarded_v2_substring (subject : str) :
  V2.forwarded subject = "Yes"
  <-> exists pre post,
        subject = pre ++ "Fwd:" ++ post \/ subject = pre ++ "FW:" ++ post.
Proof.
  unfold V2.forwarded.
  destruct (contains "Fwd:" subject) eqn:E1;
    destruct (contains "FW:" subject) eqn:E2; cbn [orb].
  - split; [intros _ | reflexivity].
    apply contains_spec in E1. destruct E1 as [pre [post H]].
    exists pre, post. left. exact H.
  - split; [intros _ | reflexivity].
    apply contains_spec in E1. destruct E1 as [pre [post H]].
    exists pre, post. left. exact H.
  - split; [intros _ | reflexivity].
    apply contains_spec in E2. destruct E2 as [pre [post H]].
    exists pre, post. right. exact H.
  - split; [discriminate|].
    intros [pre [post [H|H]]]; exfalso.
    + assert (T : contains "Fwd:" subject = true)
        by (apply contains_spec; exists pre, post; exact H).
      congruence.
    + assert (T : contains "FW:" subject = true)
        by (apply contains_spec; exists pre, post; exact H).
      congruence.
Qed.

(** C1: the second version tests for the substrings [Fwd:] and [FW:] as
    they are spelled.  It misses the forwarded subject in another letter
    case and accepts the marker inside a longer word, where the first
    version and the specification agree on the opposite answers; on the
    two subjects the specification names, both versions give the flags it
    states. *)
Theorem forwarded_v2_is_plain_substring :
  (V2.forwarded "FWD: meeting notes" = "No"
   /\ whole_word_forward "FWD: meeting notes"
   /\ V1.forwarded "FWD: meeting notes" = "Yes")
  /\ (V2.forwarded "SFW: gallery" = "Yes"
      /\ ~ whole_word_forward "SFW: gallery"
      /\ V1.forwarded "SFW: gallery" = "No")
  /\ (V2.forwarded "Fwd: quarterly report" = "Yes"
      /\ V1.forwarded "Fwd: quarterly report" = "Yes")
  /\ (V2.forwarded "fwdx update" = "No"
      /\ V1.forwarded "fwdx update" = "No").
Proof.
  repeat split; try reflexivity.
  - apply forwarded_v1_whole_word. reflexivity.
  - intros H. apply forwarded_v1_whole_word in H. discriminate H.
Qed.

(** ** Address parsing (C8) *)


Lemma forallb_rev (p : ascii -> bool) (l : str) :
  forallb p (rev l) = forallb p l.
Proof.
  induction l as [|c l IH]; simpl; [reflexivity|].
  rewrite forallb_app, IH. simpl. rewrite andb_true_r. apply andb_comm.
Qed.






Lemma dot_all (s : str) : ~ In nl s -> forallb Regex.dot s = true.
Proof.
  intros H. apply forallb_forall. intros c Hc. unfold Regex.dot.
  destruct (Ascii.eqb_spec c nl); [subst; contradiction | reflexivity].
Qed.





(** ** Attachments (C9) *)

Lemma scan_parts_spec (ps : list V2.Part) (attachment names : str) :
  V2.scan_parts ps attachment names
  = (match filenames ps with [] => attachment | _ :: _ => lit "Yes" end,
     names ++ List.concat (map (fun f => f ++ ", ") (filenames ps))).
Proof.
  revert attachment names; induction ps as [|part ps IH]; intros; simpl.
  - rewrite app_nil_r. reflexivity.
  - destruct (V2.truthy_filename part) as [f|]; rewrite IH; simpl.
    + rewrite <- !app_assoc. destruct (filenames ps); reflexivity.
    + reflexivity.
Qed.

(** The flag is right for every payload. *)
Lemma attachment_flag (p : V2.Payload) :
  fst (V2.attachments p)
  = match payload_filenames p with [] => lit "No" | _ :: _ => lit "Yes" end.
Proof.
  unfold V2.attachments, payload_filenames.
  destruct (V2.parts p) as [ps|]; [|reflexivity].
  rewrite scan_parts_spec. reflexivity.
Qed.

Lemma drop_while_outside (p : ascii -> bool) (s : str) :
  starts_outside p s -> drop_while p s = s.
Proof. destruct s as [|c s]; simpl; [reflexivity | intros ->; reflexivity]. Qed.

Lemma drop_while_app (p : ascii -> bool) (l s : str) :
  forallb p l = true -> drop_while p (l ++ s) = drop_while p s.
Proof.
  induction l as [|c l IH]; simpl; [reflexivity|].
  intros H. apply andb_true_iff in H. destruct H as [-> H]. auto.
Qed.

Lemma rstrip_by_app (p : ascii -> bool) (s t : str) :
  forallb p t = true -> starts_outside p (rev s) -> rstrip_by p (s ++ t) = s.
Proof.
  intros Ht Hs. unfold rstrip_by.
  rewrite rev_app_distr, drop_while_app by (rewrite forallb_rev; exact Ht).
  rewrite drop_while_outside by exact Hs. apply rev_involutive.
Qed.

Lemma concat_sep_join (sep : str) (names : list str) :
  names <> [] ->
  List.concat (map (fun f => f ++ sep) names) = join sep names ++ sep.
Proof.
  induction names as [|f names IH]; [congruence|]. intros _.
  destruct names as [|g names].
  - simpl. rewrite app_nil_r. reflexivity.
  - change (List.concat (map (fun f => f ++ sep) (f :: g :: names)))
      with ((f ++ sep) ++ List.concat (map (fun f => f ++ sep) (g :: names))).
    rewrite IH by discriminate.
    change (join sep (f :: g :: names)) with (f ++ sep ++ join sep (g :: names)).
    rewrite <- !app_assoc. reflexivity.
Qed.

(** The names are the joined file names whenever the joined string does
    not itself end in a comma or a space. *)
Lemma attachment_names_join (p : V2.Payload) :
  starts_outside (char_in ", ") (rev (join ", " (payload_filenames p))) ->
  snd (V2.attachments p) = join ", " (payload_filenames p).
Proof.
  unfold V2.attachments, payload_filenames.
  destruct (V2.parts p) as [ps|]; [|reflexivity].
  rewrite scan_parts_spec. simpl. intros H.
  destruct (filenames ps) as [|f names] eqn:E; [reflexivity|].
  rewrite concat_sep_join by discriminate.
  unfold rstrip_chars. apply rstrip_by_app; [reflexivity | exact H].
Qed.

(** C9: [rstrip(", ")] removes every trailing comma and space, not one
    separator: a file name that ends in a comma loses it, so the names
    cell is not the joined file names.  The flag is right. *)
Theorem attachment_names_strip_too_much :
  payload_filenames payload_draft = [lit "draft,"]
  /\ fst (V2.attachments payload_draft) = "Yes"
  /\ snd (V2.attachments payload_draft) = "draft"
  /\ join ", " (payload_filenames payload_draft) = "draft,"
  /\ snd (V2.attachments payload_draft)
     <> join ", " (payload_filenames payload_draft).
Proof. repeat split; try reflexivity. discriminate. Qed.

(** ** The record store (C6) *)

Lemma cell_at_absent (cols : list str) (row : list Cell) (c : str) :
  mem c cols = false -> cell_at cols row c = CNaN.
Proof.
  revert row; induction cols as [|c' cols IH]; intros row H; simpl;
    [reflexivity|].
  simpl in H. apply orb_false_iff in H. destruct H as [Hc H].
  destruct row as [|v row]; [reflexivity|].
  assert (E : str_eqb c' c = false).
  { apply str_eqb_neq. intros ->. rewrite str_eqb_refl in Hc. discriminate. }
  rewrite E. apply IH. exact H.
Qed.

Lemma cell_at_map (f : str -> Cell) (cols : list str) (c : str) :
  cell_at cols (map f cols) c = if mem c cols then f c else CNaN.
Proof.
  induction cols as [|c' cols IH]; simpl; [reflexivity|].
  destruct (str_eqb c' c) eqn:E.
  - apply str_eqb_eq in E. subst. rewrite str_eqb_refl. reflexivity.
  - assert (E' : str_eqb c c' = false).
    { apply str_eqb_neq. apply str_eqb_neq in E. congruence. }
    rewrite E'. simpl. exact IH.
Qed.

(** Aligning a row on columns that include its own leaves every cell
    where it was. *)
Lemma cell_at_reindex (cols newcols : list str) (row : list Cell) (c : str) :
  (forall x, mem x cols = true -> mem x newcols = true) ->
  cell_at newcols (reindex cols newcols row) c = cell_at cols row c.
Proof.
  intros Hsub. unfold reindex. rewrite cell_at_map.
  destruct (mem c newcols) eqn:E; [reflexivity|].
  symmetry. apply cell_at_absent.
  destruct (mem c cols) eqn:E'; [|reflexivity].
  apply Hsub in E'. congruence.
Qed.

Lemma concat_columns_left (a b : DataFrame) (x : str) :
  mem x (columns a) = true -> mem x (columns (concat a b)) = true.
Proof.
  intros H. apply mem_In. simpl. apply in_or_app. left. apply mem_In. exact H.
Qed.

Lemma concat_columns_right (a b : DataFrame) (x : str) :
  mem x (columns b) = true -> mem x (columns (concat a b)) = true.
Proof.
  intros H. apply mem_In. simpl. apply in_or_app.
  destruct (mem x (columns a)) eqn:E.
  - left. apply mem_In. exact E.
  - right. apply filter_In. split; [apply mem_In; exact H|].
    rewrite E. reflexivity.
Qed.

(** Every column of the combined table reads the old rows and then the
    new rows, cell for cell. *)
Lemma concat_column_view (a b : DataFrame) (c : str) :
  map (fun row => cell_at (columns (concat a b)) row c) (data (concat a b))
  = map (fun row => cell_at (columns a) row c) (data a)
    ++ map (fun row => cell_at (columns b) row c) (data b).
Proof.
  change (data (concat a b))
    with (map (reindex (columns a) (columns (concat a b))) (data a)
          ++ map (reindex (columns b) (columns (concat a b))) (data b)).
  rewrite map_app, !map_map. f_equal; apply map_ext; intros row;
    apply cell_at_reindex; intros x;
    [apply concat_columns_left | apply concat_columns_right].
Qed.

Lemma reindex_same (cols : list str) (row : list Cell) :
  NoDup cols -> length row = length cols -> reindex cols cols row = row.
Proof.
  unfold reindex. revert row; induction cols as [|c cols IH]; intros row Hnd Hlen.
  - destruct row; [reflexivity | discriminate].
  - destruct row as [|v row]; [discriminate|]. simpl in *.
    rewrite str_eqb_refl. f_equal. inversion Hnd as [|? ? Hc Hnd']; subst.
    transitivity (map (cell_at cols row) cols);
      [|apply IH; [exact Hnd' | congruence]].
    apply map_ext_in. intros x Hx. simpl.
    assert (E : str_eqb c x = false)
      by (apply str_eqb_neq; intros ->; contradiction).
    rewrite E. reflexivity.
Qed.

Lemma COLUMNS_NoDup : NoDup COLUMNS.
Proof.
  unfold COLUMNS. simpl.
  repeat (constructor; [simpl; intuition discriminate|]). constructor.
Qed.

(** When the stored table has the columns of the script, the combined
    table holds the very rows, old then new. *)
Lemma append_rows_same_schema (old rows : list (list Cell)) :
  Forall (fun row => length row = 12) old ->
  Forall (fun row => length row = 12) rows ->
  append_rows (Some (new_frame old)) rows = new_frame (old ++ rows).
Proof.
  intros Hold Hrows. unfold append_rows, concat, new_frame. simpl columns.
  assert (E : filter (fun c => negb (mem c COLUMNS)) COLUMNS = [])
    by reflexivity.
  rewrite E, app_nil_r. f_equal. simpl data.
  assert (R : forall l, Forall (fun row : list Cell => length row = 12) l ->
                        map (reindex COLUMNS COLUMNS) l = l).
  { induction 1 as [|row l Hrow _ IH]; [reflexivity|]. cbn [map].
    rewrite IH, reindex_same; [reflexivity | apply COLUMNS_NoDup | exact Hrow]. }
  rewrite !R by assumption. reflexivity.
Qed.




(** ** Labels (C5) *)

Lemma find_app {A} (f : A -> bool) (l1 l2 : list A) :
  find f (l1 ++ l2)
  = match find f l1 with Some x => Some x | None => find f l2 end.
Proof.
  induction l1 as [|x l1 IH]; simpl; [reflexivity|].
  destruct (f x); [reflexivity | exact IH].
Qed.


Lemma find_label_id_in (labels : list Label) (name id : str) :
  find_label labels name = Some id ->
  exists lbl, In lbl labels /\ label_id lbl = id.
Proof.
  unfold find_label.
  destruct (find _ labels) as [lbl|] eqn:E; [|discriminate].
  intros H; inversion H; subst. apply find_some in E.
  exists lbl. tauto.
Qed.





(** ** The run: what a turn of the loop may change *)

Lemma bind_ok {A B} (m : M A) (f : A -> M B) (w w1 : World) (a : A) :
  m w = (Ok a, w1) -> bind m f w = f a w1.
Proof. unfold bind. intros ->. reflexivity. Qed.

Lemma bind_raise {A B} (m : M A) (f : A -> M B) (w w1 : World) (e : Exn) :
  m w = (Raise e, w1) -> bind m f w = (Raise e, w1).
Proof. unfold bind. intros ->. reflexivity. Qed.

Lemma bind_inv_ok {A B} (m : M A) (f : A -> M B) (w w' : World) (b : B) :
  bind m f w = (Ok b, w') ->
  exists a w1, m w = (Ok a, w1) /\ f a w1 = (Ok b, w').
Proof.
  unfold bind. destruct (m w) as [[a|e] w1]; [|discriminate].
  intros H. exists a, w1. auto.
Qed.

Lemma has_id_sym_false (i id : str) (m : V2.Message) :
  i <> id -> has_id id m = true -> has_id i m = false.
Proof.
  unfold has_id. intros Hne H. apply str_eqb_eq in H.
  apply str_eqb_neq. congruence.
Qed.

Lemma update_update (g h : list str -> list str) (id : str)
  (mb : list V2.Message) :
  update_label_ids h id (update_label_ids g id mb)
  = update_label_ids (fun l => h (g l)) id mb.
Proof.
  unfold update_label_ids. rewrite map_map. apply map_ext. intros m.
  destruct (has_id id m) eqn:E.
  - unfold has_id in *. simpl. rewrite E. reflexivity.
  - rewrite E. reflexivity.
Qed.

Lemma present_update (g : list str -> list str) (id i : str)
  (mb : list V2.Message) :
  present (update_label_ids g id mb) i = present mb i.
Proof.
  unfold present, update_label_ids. induction mb as [|m mb IH]; simpl;
    [reflexivity|].
  rewrite IH. f_equal. destruct (has_id id m); reflexivity.
Qed.

Lemma unread_of_update_other (g : list str -> list str) (id i : str)
  (mb : list V2.Message) :
  i <> id -> unread_of (update_label_ids g id mb) i = unread_of mb i.
Proof.
  intros Hne. unfold unread_of, update_label_ids.
  induction mb as [|m mb IH]; simpl; [reflexivity|].
  rewrite IH. f_equal. destruct (has_id id m) eqn:E; [|reflexivity].
  pose proof (has_id_sym_false i id m Hne E) as Hi.
  unfold has_id in *. simpl. rewrite Hi. reflexivity.
Qed.

Lemma mem_filter_out (x : str) (l : list str) :
  mem x (filter (fun y => negb (str_eqb y x)) l) = false.
Proof.
  apply mem_not_In. intros H. apply filter_In in H. destruct H as [_ H].
  rewrite str_eqb_refl in H. discriminate.
Qed.

Lemma unread_of_marked_read (id : str) (mb : list V2.Message) :
  unread_of
    (update_label_ids (filter (fun x => negb (str_eqb x "UNREAD"))) id mb) id
  = false.
Proof.
  unfold unread_of, update_label_ids.
  induction mb as [|m mb IH]; [reflexivity|]. cbn [existsb map].
  rewrite IH, orb_false_r. destruct (has_id id m) eqn:E.
  - unfold is_unread, label_ids_of. cbn [V2.labelIds].
    rewrite mem_filter_out. apply andb_false_r.
  - rewrite E. reflexivity.
Qed.

Lemma only_id_refl (id : str) (mb : list V2.Message) : only_id id mb mb.
Proof. left. reflexivity. Qed.

Lemma only_id_trans (id : str) (mb1 mb2 mb3 : list V2.Message) :
  only_id id mb1 mb2 -> only_id id mb2 mb3 -> only_id id mb1 mb3.
Proof.
  intros [->|[g ->]] [->|[h ->]].
  - left. reflexivity.
  - right. exists h. reflexivity.
  - right. exists g. reflexivity.
  - right. exists (fun l => h (g l)). apply update_update.
Qed.

Lemma only_id_present (id i : str) (mb mb' : list V2.Message) :
  only_id id mb mb' -> present mb' i = present mb i.
Proof. intros [->|[g ->]]; [reflexivity | apply present_update]. Qed.

Lemma only_id_unread_other (id i : str) (mb mb' : list V2.Message) :
  only_id id mb mb' -> i <> id -> unread_of mb' i = unread_of mb i.
Proof.
  intros [->|[g ->]] Hne; [reflexivity | apply unread_of_update_other; exact Hne].
Qed.

Lemma frame_refl (id : str) (w : World) : frame id w w.
Proof.
  repeat split; [apply only_id_refl|].
  exists []. rewrite app_nil_r. auto.
Qed.

Lemma frame_trans (id : str) (w1 w2 w3 : World) :
  frame id w1 w2 -> frame id w2 w3 -> frame id w1 w3.
Proof.
  intros [C1 [G1 [M1 [k1 [T1 F1]]]]] [C2 [G2 [M2 [k2 [T2 F2]]]]].
  repeat split; try congruence.
  - eapply only_id_trans; eassumption.
  - exists (k1 ++ k2). split.
    + rewrite T2, T1, app_assoc. reflexivity.
    + rewrite forallb_app, F1, F2. reflexivity.
Qed.

Lemma frames_ret {A} (id : str) (a : A) : frames id (ret a).
Proof. intros w. apply frame_refl. Qed.

Lemma frames_bind {A B} (id : str) (m : M A) (f : A -> M B) :
  frames id m -> (forall a, frames id (f a)) -> frames id (bind m f).
Proof.
  intros Hm Hf w. unfold bind. specialize (Hm w).
  destruct (m w) as [[a|e] w1]; simpl in *; [|exact Hm].
  eapply frame_trans; [exact Hm | apply Hf].
Qed.

Lemma frame_log (id : str) (c : Call) (w : World) :
  call_for id c = true -> frame id w (log c w).
Proof.
  intros H. repeat split; [apply only_id_refl|].
  exists [c]. simpl. rewrite H. auto.
Qed.

(** A remote call for message [id] whose effect stays within the frame
    stays within the frame. *)
Lemma frames_remote {A} (env : Env) (id : str) (c : Call)
  (op : World -> Result A * World) :
  call_for id c = true ->
  (forall w, frame id w (snd (op w))) ->
  frames id (remote env c op).
Proof.
  intros Hc Hop w. unfold remote.
  destruct (fault env (trace w) c); simpl.
  - apply frame_log. exact Hc.
  - eapply frame_trans; [apply frame_log; exact Hc | apply Hop].
Qed.

Lemma frames_messages_get (env : Env) (id : str) :
  frames id (messages_get env id).
Proof.
  apply frames_remote; [apply str_eqb_refl|].
  intros w. destruct (find (has_id id) (mailbox w)); apply frame_refl.
Qed.

Lemma frames_messages_modify (env : Env) (c : Call)
  (f : list str -> list str) (id : str) :
  call_for id c = true -> frames id (messages_modify env c f id).
Proof.
  intros Hc. apply frames_remote; [exact Hc|].
  intros w. destruct (existsb (has_id id) (mailbox w)); simpl;
    [|apply frame_refl].
  repeat split.
  - right. exists f. reflexivity.
  - exists []. rewrite app_nil_r. auto.
Qed.

Lemma frames_ensure_label (env : Env) (id name : str) :
  frames id (ensure_label env name).
Proof.
  unfold ensure_label. apply frames_bind.
  - apply frames_remote; [reflexivity|]. intros w. apply frame_refl.
  - intros labels.
    assert (Hc : frames id (label <- labels_create env name ;;
                            ret (label_id label))).
    { apply frames_bind; [|intros; apply frames_ret].
      apply frames_remote; [reflexivity|]. intros w.
      repeat split; [apply only_id_refl|].
      exists []. rewrite app_nil_r. auto. }
    destruct (find_label labels name) as [[|c r]|];
      [exact Hc | apply frames_ret | exact Hc].
Qed.

Lemma frames_move_to_label (env : Env) (id name : str) :
  frames id (move_to_label env id name).
Proof.
  unfold move_to_label. apply frames_bind; [apply frames_ensure_label|].
  intros lid. apply frames_messages_modify. apply str_eqb_refl.
Qed.

Lemma frames_process_message (env : Env) (labels_list : list str)
  (rows : list (list Cell)) (id : str) :
  frames id (process_message env labels_list rows id).
Proof.
  unfold process_message.
  apply frames_bind; [apply frames_messages_get|]. intros full_msg.
  apply frames_bind; [intros w; apply frame_refl|]. intros category.
  apply frames_bind.
  { destruct (negb (str_eqb category "Other"));
      [apply frames_move_to_label | apply frames_ret]. }
  intros _. apply frames_bind; [intros w; apply frame_refl|]. intros t.
  apply frames_bind; [|intros; apply frames_ret].
  apply frames_messages_modify. apply str_eqb_refl.
Qed.

(** ** The run: one turn of the loop *)

Lemma messages_modify_inv (env : Env) (c : Call) (f : list str -> list str)
  (id : str) (w w' : World) :
  messages_modify env c f id w = (Ok tt, w') ->
  mailbox w' = update_label_ids f id (mailbox w)
  /\ trace w' = trace w ++ [c].
Proof.
  unfold messages_modify, remote.
  destruct (fault env (trace w) c); [discriminate|]. simpl.
  destruct (existsb (has_id id) (mailbox w)); [|discriminate].
  intros H; inversion H; subst. auto.
Qed.

(** A turn that returns has added one row of twelve cells, has removed
    the unread marker of its message, and made the call that does so. *)
Lemma process_message_ok_inv (env : Env) (labels_list : list str)
  (rows rows' : list (list Cell)) (id : str) (w w' : World) :
  process_message env labels_list rows id w = (Ok rows', w') ->
  (exists row, rows' = rows ++ [row] /\ length row = 12)
  /\ unread_of (mailbox w') id = false
  /\ exists calls,
       trace w' = trace w ++ calls
       /\ In (MessagesModifyRemove id "UNREAD") calls.
Proof.
  unfold process_message. intros H.
  apply bind_inv_ok in H. destruct H as [full_msg [w1 [Hget H]]].
  apply bind_inv_ok in H. destruct H as [category [w2 [Hcl H]]].
  apply bind_inv_ok in H. destruct H as [u [w3 [Hmv H]]].
  apply bind_inv_ok in H. destruct H as [t [w4 [Hclock H]]].
  apply bind_inv_ok in H. destruct H as [u' [w5 [Hrm H]]].
  unfold ret in H. inversion H; subst rows' w5. clear H.
  destruct u'. apply messages_modify_inv in Hrm. destruct Hrm as [Hmb Htr].
  split; [eexists; split; reflexivity|].
  split; [rewrite Hmb; apply unread_of_marked_read|].
  assert (F : frame id w w4).
  { pose proof (frames_messages_get env id w) as F1. rewrite Hget in F1.
    assert (F2 : frame id w1 w2)
      by (unfold classify in Hcl; inversion Hcl; apply frame_refl).
    assert (F3 : frame id w2 w3).
    { destruct (negb (str_eqb category "Other")).
      - pose proof (frames_move_to_label env id category w2) as F.
        rewrite Hmv in F. exact F.
      - unfold ret in Hmv. inversion Hmv. apply frame_refl. }
    assert (F4 : frame id w3 w4)
      by (unfold clock in Hclock; inversion Hclock; apply frame_refl).
    eapply frame_trans; [exact F1|]. eapply frame_trans; [exact F2|].
    eapply frame_trans; eassumption. }
  destruct F as [_ [_ [_ [calls [T _]]]]].
  exists (calls ++ [MessagesModifyRemove id "UNREAD"]). split.
  - rewrite Htr, T, app_assoc. reflexivity.
  - apply in_or_app. right. left. reflexivity.
Qed.


Lemma existsb_find {A} (f : A -> bool) (l : list A) :
  existsb f l = true -> exists x, find f l = Some x.
Proof.
  induction l as [|x l IH]; simpl; [discriminate|].
  destruct (f x); [intros _; exists x; reflexivity | exact IH].
Qed.





(** ** The run: the loop *)


Lemma frame_all_refl (ids : list str) (w : World) : frame_all ids w w.
Proof.
  repeat split. exists []. rewrite app_nil_r. split; [reflexivity|].
  intros c [].
Qed.

Lemma frame_all_cons (id : str) (ids : list str) (w w1 w' : World) :
  frame id w w1 -> frame_all ids w1 w' -> frame_all (id :: ids) w w'.
Proof.
  intros [C1 [G1 [M1 [k1 [T1 F1]]]]] [C2 [G2 [P2 [U2 [k2 [T2 F2]]]]]].
  repeat split; try congruence.
  - intros i. rewrite P2. apply (only_id_present _ _ _ _ M1).
  - intros i Hi. rewrite U2 by (intros H; apply Hi; right; exact H).
    apply (only_id_unread_other _ _ _ _ M1). intros ->. apply Hi. left.
    reflexivity.
  - exists (k1 ++ k2). split; [rewrite T2, T1, app_assoc; reflexivity|].
    intros c Hc. apply in_app_or in Hc. destruct Hc as [Hc|Hc].
    + exists id. split; [left; reflexivity|].
      rewrite forallb_forall in F1. apply F1. exact Hc.
    + destruct (F2 c Hc) as [i [Hi Hfor]]. exists i. split; [right|]; auto.
Qed.

(** Whether it returns or raises, the loop over [ids] leaves the store
    alone, changes the markers of no other message, and makes calls for
    the messages in [ids] only. *)
Lemma process_all_frame (env : Env) (labels_list : list str) (ids : list str) :
  forall rows w,
    frame_all ids w (snd (process_all env labels_list ids rows w)).
Proof.
  induction ids as [|id ids IH]; intros rows w; simpl.
  - apply frame_all_refl.
  - pose proof (frames_process_message env labels_list rows id w) as F.
    unfold bind.
    destruct (process_message env labels_list rows id w) as [[rows1|e] w1];
      simpl in *.
    + eapply frame_all_cons; [exact F | apply IH].
    + eapply frame_all_cons; [exact F | apply frame_all_refl].
Qed.

(** A loop that returns has added one row per message, removed every
    unread marker of the batch, and made the calls that do so. *)
Lemma process_all_ok_inv (env : Env) (labels_list : list str)
  (ids : list str) :
  forall rows rows' w w',
    process_all env labels_list ids rows w = (Ok rows', w') ->
    (exists new, rows' = rows ++ new /\ length new = length ids
                 /\ Forall (fun row => length row = 12) new)
    /\ (forall id, In id ids -> unread_of (mailbox w') id = false)
    /\ exists calls,
         trace w' = trace w ++ calls
         /\ forall id, In id ids -> In (MessagesModifyRemove id "UNREAD") calls.
Proof.
  induction ids as [|id ids IH]; intros rows rows' w w' H; simpl in H.
  - unfold ret in H. inversion H; subst. split; [|split].
    + exists []. rewrite app_nil_r. auto.
    + intros id [].
    + exists []. rewrite app_nil_r. split; [reflexivity | intros id []].
  - apply bind_inv_ok in H. destruct H as [rows1 [w1 [H1 H2]]].
    pose proof (process_all_frame env labels_list ids rows1 w1) as F.
    rewrite H2 in F. simpl in F.
    apply process_message_ok_inv in H1.
    destruct H1 as [[row [-> Hrow]] [Hread [k1 [T1 In1]]]].
    apply IH in H2. destruct H2 as [[new [-> [Hlen Hnew]]] [Hall [k2 [T2 In2]]]].
    split; [|split].
    + exists (row :: new). rewrite <- app_assoc. simpl.
      repeat split; [congruence | constructor; assumption].
    + intros i [<-|Hi]; [|apply Hall; exact Hi].
      destruct (str_in_dec id ids) as [Hin|Hout]; [apply Hall; exact Hin|].
      destruct F as [_ [_ [_ [U _]]]]. rewrite (U id Hout). exact Hread.
    + exists (k1 ++ k2). split; [rewrite T2, T1, app_assoc; reflexivity|].
      intros i [<-|Hi]; apply in_or_app; [left; exact In1 | right; auto].
Qed.




(** ** The run: the batch *)

Lemma firstn_In {A} (n : nat) (l : list A) (x : A) :
  In x (firstn n l) -> In x l.
Proof.
  intros H. rewrite <- (firstn_skipn n l). apply in_or_app. left. exact H.
Qed.

Lemma batch_present (w : World) (id : str) :
  In id (batch w) -> present (mailbox w) id = true.
Proof.
  unfold batch. intros H. apply firstn_In in H. apply in_map_iff in H.
  destruct H as [m [<- Hm]]. apply filter_In in Hm.
  unfold present. apply existsb_exists. exists m.
  split; [tauto | apply str_eqb_refl].
Qed.


Lemma messages_list_inv (env : Env) (w w1 : World) (ids : list str) :
  messages_list env w = (Ok ids, w1) ->
  ids = batch w /\ w1 = log MessagesList w.
Proof.
  unfold messages_list, remote.
  destruct (fault env (trace w) MessagesList); [discriminate|].
  intros H; inversion H. auto.
Qed.

Lemma append_to_csv_inv (env : Env) (rows : list (list Cell)) (w w' : World) :
  append_to_csv env rows w = (Ok tt, w') ->
  csv w' = Some (append_rows (csv w) rows)
  /\ mailbox w' = mailbox w
  /\ exists reads,
       trace w' = trace w ++ reads ++ [WriteCsv] /\ ~ In WriteCsv reads.
Proof.
  unfold append_to_csv. destruct (csv w) as [df|] eqn:E.
  - intros H. apply bind_inv_ok in H. destruct H as [df' [w1 [Hr Hw]]].
    unfold read_csv, remote in Hr.
    destruct (fault env (trace w) ReadCsv); [discriminate|].
    simpl in Hr. rewrite E in Hr. inversion Hr; subst df' w1. clear Hr.
    unfold to_csv, remote in Hw.
    destruct (fault env (trace (log ReadCsv w)) WriteCsv); [discriminate|].
    inversion Hw; subst w'. simpl. repeat split.
    exists [ReadCsv]. rewrite <- app_assoc. split; [reflexivity|].
    intros [H'|[]]; discriminate.
  - unfold to_csv, remote.
    destruct (fault env (trace w) WriteCsv); [discriminate|].
    intros H; inversion H; subst; simpl. repeat split.
    exists []. split; [reflexivity | intros []].
Qed.

(** ** Persisting and marking read (C2) *)




(** ** Faults during the loop (C3) *)

Lemma messages_list_ok (env : Env) (w : World) :
  fault env (trace w) MessagesList = false ->
  messages_list env w = (Ok (batch w), log MessagesList w).
Proof. intros H. unfold messages_list, remote. rewrite H. reflexivity. Qed.




(** * Further properties of the scripts *)

(** ** [parse_email]: which bracket pair is taken *)

Lemma greedy_star_none_inv {A} (p : ascii -> bool)
  (k : str -> str -> option A) (s : str) :
  forall acc,
    Regex.greedy_star p k acc s = None ->
    forall a b, s = a ++ b -> forallb p a = true -> k (acc ++ a) b = None.
Proof.
  induction s as [|c s IH]; intros acc H a b E Ha.
  - symmetry in E. apply app_eq_nil in E. destruct E; subst.
    rewrite app_nil_r. exact H.
  - simpl in H. destruct a as [|x a].
    + simpl in E. subst b. rewrite app_nil_r.
      destruct (p c); [|exact H].
      destruct (Regex.greedy_star p k (acc ++ [c]) s); [discriminate | exact H].
    + simpl in E. inversion E; subst x s. simpl in Ha.
      apply andb_true_iff in Ha. destruct Ha as [Hc Ha]. rewrite Hc in H.
      destruct (Regex.greedy_star p k (acc ++ [c]) (a ++ b)) eqn:G;
        [discriminate|].
      specialize (IH (acc ++ [c]) G a b eq_refl Ha).
      rewrite <- app_assoc in IH. exact IH.
Qed.

Lemma greedy_star_some_inv {A} (p : ascii -> bool)
  (k : str -> str -> option A) (s : str) (r : A) :
  forall acc,
    Regex.greedy_star p k acc s = Some r ->
    exists a b,
      s = a ++ b /\ forallb p a = true /\ k (acc ++ a) b = Some r
      /\ forall a' b', b = a' ++ b' -> a' <> [] -> forallb p a' = true ->
                       k (acc ++ a ++ a') b' = None.
Proof.
  induction s as [|c s IH]; intros acc H; simpl in H.
  - exists [], []. repeat split; [rewrite app_nil_r; exact H|].
    intros a' b' E Hne. symmetry in E. apply app_eq_nil in E.
    destruct E; contradiction.
  - destruct (p c) eqn:Hc.
    + destruct (Regex.greedy_star p k (acc ++ [c]) s) as [r'|] eqn:G.
      * inversion H; subst r'.
        destruct (IH _ G) as [a [b [-> [Ha [Hk Hlong]]]]].
        exists (c :: a), b. simpl. rewrite Hc, Ha.
        rewrite <- app_assoc in Hk. repeat split; [exact Hk|].
        intros a' b' E Hne Hp. specialize (Hlong a' b' E Hne Hp).
        rewrite <- !app_assoc in Hlong. exact Hlong.
      * exists [], (c :: s). repeat split; [rewrite app_nil_r; exact H|].
        intros a' b' E Hne Hp. destruct a' as [|x a']; [congruence|].
        simpl in E. inversion E; subst x s. simpl in Hp.
        apply andb_true_iff in Hp. destruct Hp as [_ Hp].
        pose proof (greedy_star_none_inv p k (a' ++ b') (acc ++ [c]) G
                      a' b' eq_refl Hp) as N.
        rewrite <- app_assoc in N. exact N.
    + exists [], (c :: s). repeat split; [rewrite app_nil_r; exact H|].
      intros a' b' E Hne Hp. destruct a' as [|x a']; [congruence|].
      simpl in E. inversion E; subst x. simpl in Hp. rewrite Hc in Hp.
      discriminate.
Qed.

Lemma dot_all_inv (s : str) : forallb Regex.dot s = true -> ~ In nl s.
Proof.
  intros H Hin. rewrite forallb_forall in H. specialize (H nl Hin).
  unfold Regex.dot in H. rewrite Ascii.eqb_refl in H. discriminate.
Qed.

Lemma char_inv {A} (c : ascii) (k : str -> option A) (s : str) (r : A) :
  Regex.char c k s = Some r -> exists s', s = c :: s' /\ k s' = Some r.
Proof.
  destruct s as [|x s]; simpl; [discriminate|].
  destruct (Ascii.eqb_spec x c) as [->|]; [|discriminate].
  intros H. exists s. auto.
Qed.

(** The inner part of the pattern, from the opening bracket on, matches
    as soon as the line has a closing bracket after it. *)
Lemma inner_angle_matches (g1 b c : str) :
  ~ In nl b ->
  Regex.char "<"
    (fun r2 =>
       Regex.greedy_star Regex.dot
         (fun g2 r3 => Regex.char ">" (fun _ => Some (g1, g2)) r3) [] r2)
    ("<" ++ b ++ ">" ++ c) <> None.
Proof.
  intros Hb H. simpl in H.
  pose proof (greedy_star_none_inv Regex.dot _ _ [] H b (">" ++ c) eq_refl
                (dot_all b Hb)) as N.
  simpl in N. discriminate.
Qed.

(** What [match_angle] returns, and when it returns nothing. *)
Lemma match_angle_some (full g1 g2 : str) :
  Regex.match_angle full = Some (g1, g2) ->
  exists rest,
    full = g1 ++ "<" ++ g2 ++ ">" ++ rest
    /\ ~ In nl g1 /\ ~ In nl g2 /\ ~ In "<"%char g2
    /\ forall x y, rest = x ++ ">" ++ y -> In nl x.
Proof.
  unfold Regex.match_angle. intros H.
  apply greedy_star_some_inv in H.
  destruct H as [a [b [-> [Ha [Hk Hlong]]]]]. simpl in Hk.
  apply char_inv in Hk. destruct Hk as [r2 [-> Hk]].
  apply greedy_star_some_inv in Hk.
  destruct Hk as [a2 [b2 [-> [Ha2 [Hk2 Hlong2]]]]]. simpl in Hk2.
  apply char_inv in Hk2. destruct Hk2 as [rest [-> Hk2]].
  inversion Hk2; subst a a2. clear Hk2.
  exists rest. split; [reflexivity|].
  split; [apply dot_all_inv; exact Ha|].
  split; [apply dot_all_inv; exact Ha2|]. split.
  - intros Hin. apply in_split in Hin. destruct Hin as [u [v ->]].
    apply (inner_angle_matches (g1 ++ "<" ++ u) v rest).
    + intros Hv. apply (dot_all_inv _ Ha2). apply in_or_app. right. right.
      exact Hv.
    + specialize (Hlong ("<" ++ u) ("<" ++ v ++ ">" ++ rest)).
      simpl in Hlong. simpl. apply Hlong.
      * rewrite <- app_assoc. reflexivity.
      * discriminate.
      * rewrite forallb_app in Ha2. apply andb_true_iff in Ha2.
        destruct Ha2 as [Hu _]. exact Hu.
  - intros x y ->.
    destruct (in_dec ascii_dec nl x) as [Hin|Hout]; [exact Hin|].
    exfalso.
    specialize (Hlong2 (">" ++ x) (">" ++ y)). simpl in Hlong2.
    specialize (Hlong2 eq_refl).
    assert (N : Some (g1, g2 ++ ">"%char :: x) = None); [|discriminate].
    apply Hlong2; [discriminate|].
    apply (dot_all x Hout).
Qed.

Lemma match_angle_none (full : str) :
  Regex.match_angle full = None
  <-> ~ exists a b c,
          full = a ++ "<" ++ b ++ ">" ++ c /\ ~ In nl a /\ ~ In nl b.
Proof.
  split.
  - intros H [a [b [c [-> [Ha Hb]]]]]. unfold Regex.match_angle in H.
    pose proof (greedy_star_none_inv Regex.dot _ _ [] H a
                  ("<" ++ b ++ ">" ++ c) eq_refl (dot_all a Ha)) as N.
    exact (inner_angle_matches ([] ++ a) b c Hb N).
  - intros H. destruct (Regex.match_angle full) as [[g1 g2]|] eqn:E;
      [|reflexivity].
    exfalso. apply H. apply match_angle_some in E.
    destruct E as [rest [-> [H1 [H2 _]]]]. exists g1, g2, rest. auto.
Qed.

(** X1: [parse_email] splits at the last opening bracket that still has
    a closing bracket after it on the first line, and at the last closing
    bracket of that line; it falls back to the whole trimmed input with
    an empty name exactly when the first line has no opening bracket
    followed by a closing one. *)
Theorem parse_email_split (full : str) :
  (exists g1 g2 rest,
     full = g1 ++ "<" ++ g2 ++ ">" ++ rest
     /\ ~ In nl g1 /\ ~ In nl g2 /\ ~ In "<"%char g2
     /\ (forall x y, rest = x ++ ">" ++ y -> In nl x)
     /\ V2.parse_email full = (strip_chars [dquote] (strip g1), strip g2))
  \/ ((~ exists a b c,
          full = a ++ "<" ++ b ++ ">" ++ c /\ ~ In nl a /\ ~ In nl b)
      /\ V2.parse_email full = ([], strip full)).
Proof.
  unfold V2.parse_email.
  destruct (Regex.match_angle full) as [[g1 g2]|] eqn:E.
  - left. apply match_angle_some in E.
    destruct E as [rest [E [H1 [H2 [H3 H4]]]]].
    exists g1, g2, rest. auto 10.
  - right. split; [apply match_angle_none; exact E | reflexivity].
Qed.

(** ** [get_email_body] *)

Lemma find_split {A} (f : A -> bool) (l : list A) (x : A) :
  find f l = Some x ->
  exists pre post,
    l = pre ++ x :: post /\ f x = true /\ forall q, In q pre -> f q = false.
Proof.
  induction l as [|y l IH]; simpl; [discriminate|].
  destruct (f y) eqn:E.
  - intros H; inversion H; subst. exists [], l. repeat split; auto.
    intros q [].
  - intros H. destruct (IH H) as [pre [post [-> [Hx Hpre]]]].
    exists (y :: pre), post. repeat split; auto.
    intros q [<-|Hq]; auto.
Qed.

(** X2: [get_email_body] never raises.  An inline body wins over the
    parts; without one, the body is that of the first part that is plain
    text and has data; a body that cannot be decoded, or a payload with
    neither, gives the empty string. *)
Theorem get_email_body_cases (decode : str -> Result str) (p : V2.Payload) :
  (exists data,
     V2.body_data p = Some data
     /\ V2.get_email_body decode p = or_empty (decode data))
  \/ (V2.body_data p = None
      /\ exists pre part post data,
           V2.parts p = Some (pre ++ part :: post)
           /\ V2.mimeType part = "text/plain"
           /\ V2.part_data part = Some data
           /\ (forall q, In q pre -> plain_with_data q = false)
           /\ V2.get_email_body decode p = or_empty (decode data))
  \/ (V2.body_data p = None
      /\ (V2.parts p = None
          \/ exists ps, V2.parts p = Some ps
                        /\ forall q, In q ps -> plain_with_data q = false)
      /\ V2.get_email_body decode p = []).
Proof.
  unfold V2.get_email_body.
  destruct (V2.body_data p) as [data|] eqn:Eb.
  - left. exists data. split; [reflexivity|].
    destruct (decode data); reflexivity.
  - right. destruct (V2.parts p) as [ps|] eqn:Ep.
    + fold plain_with_data.
      change (fun part : V2.Part =>
                (str_eqb (V2.mimeType part) "text/plain"
                 && match V2.part_data part with
                    | Some _ => true
                    | None => false
                    end)%bool) with plain_with_data.
      destruct (find plain_with_data ps) as [part|] eqn:Ef.
      * left. split; [reflexivity|].
        destruct (find_split _ _ _ Ef) as [pre [post [-> [Hp Hpre]]]].
        unfold plain_with_data in Hp. apply andb_true_iff in Hp.
        destruct Hp as [Hm Hd]. apply str_eqb_eq in Hm.
        destruct part as [mt [data|] fn]; simpl in *; [|discriminate].
        exists pre, {| V2.mimeType := mt; V2.part_data := Some data;
                       V2.filename := fn |}, post, data.
        repeat split; auto. destruct (decode data); reflexivity.
      * right. split; [reflexivity|]. split; [|reflexivity].
        right. exists ps. split; [reflexivity|].
        intros q Hq. exact (find_none _ _ Ef q Hq).
    + right. split; [reflexivity|]. split; [left|]; reflexivity.
Qed.

(** ** What a run does to the mailbox *)

Lemma gentle_add_label (label : str) : gentle (add_label label).
Proof.
  intros l x _ H. unfold add_label.
  destruct (mem label l); [exact H | apply in_or_app; left; exact H].
Qed.

Lemma gentle_remove_unread :
  gentle (filter (fun x => negb (str_eqb x "UNREAD"))).
Proof.
  intros l x Hx H. apply filter_In. split; [exact H|].
  apply negb_true_iff. apply str_eqb_neq. exact Hx.
Qed.

Lemma mailbox_kept_refl (ids : list str) (mb : list V2.Message) :
  mailbox_kept ids mb mb.
Proof. repeat split; auto. Qed.

Lemma mailbox_kept_trans (ids : list str) (mb1 mb2 mb3 : list V2.Message) :
  mailbox_kept ids mb1 mb2 -> mailbox_kept ids mb2 mb3 ->
  mailbox_kept ids mb1 mb3.
Proof.
  intros [I1 [P1 [O1 K1]]] [I2 [P2 [O2 K2]]]. repeat split; try congruence.
  - intros i Hi. rewrite O2, O1; auto.
  - intros i l Hl H. apply K2; [exact Hl|]. apply K1; assumption.
Qed.

Lemma filter_update_other (g : list str -> list str) (id i : str)
  (mb : list V2.Message) :
  i <> id ->
  filter (has_id i) (update_label_ids g id mb) = filter (has_id i) mb.
Proof.
  intros Hne. unfold update_label_ids.
  induction mb as [|m mb IH]; [reflexivity|]. cbn [map filter].
  rewrite IH. destruct (has_id id m) eqn:E; [|reflexivity].
  pose proof (has_id_sym_false i id m Hne E) as Hi.
  unfold has_id in *. cbn [V2.msg_id]. rewrite Hi. reflexivity.
Qed.

Lemma filter_cons_true {A} (f : A -> bool) (x : A) (l : list A) :
  f x = true -> filter f (x :: l) = x :: filter f l.
Proof. intros H. simpl. rewrite H. reflexivity. Qed.

Lemma filter_cons_false {A} (f : A -> bool) (x : A) (l : list A) :
  f x = false -> filter f (x :: l) = filter f l.
Proof. intros H. simpl. rewrite H. reflexivity. Qed.

Lemma labels_of_update_id (g : list str -> list str) (id : str)
  (mb : list V2.Message) :
  labels_of (update_label_ids g id mb) id
  = flat_map (fun m => g (label_ids_of m)) (filter (has_id id) mb).
Proof.
  unfold labels_of, update_label_ids.
  induction mb as [|m mb IH]; [reflexivity|]. cbn [map].
  destruct (has_id id m) eqn:E.
  - rewrite !filter_cons_true by exact E. cbn [flat_map]. rewrite IH.
    reflexivity.
  - rewrite !filter_cons_false by exact E. exact IH.
Qed.

Lemma labels_of_update_same (g : list str -> list str) (id x : str)
  (mb : list V2.Message) :
  (forall l, In x l -> In x (g l)) ->
  In x (labels_of mb id) -> In x (labels_of (update_label_ids g id mb) id).
Proof.
  intros Hg. rewrite labels_of_update_id. unfold labels_of.
  rewrite !in_flat_map. intros [m [Hm Hx]]. exists m. auto.
Qed.

Lemma mailbox_kept_update (ids : list str) (g : list str -> list str)
  (id : str) (mb : list V2.Message) :
  In id ids -> gentle g -> mailbox_kept ids mb (update_label_ids g id mb).
Proof.
  intros Hid Hg. repeat split.
  - unfold update_label_ids. rewrite map_map. apply map_ext.
    intros m. destruct (has_id id m); reflexivity.
  - unfold update_label_ids. rewrite map_map. apply map_ext.
    intros m. destruct (has_id id m); reflexivity.
  - intros i Hi. apply filter_update_other. intros ->. contradiction.
  - intros i l Hl H. destruct (list_eq_dec ascii_dec i id) as [->|Hne].
    + apply labels_of_update_same; [intros l' Hin; apply Hg; assumption|].
      exact H.
    + unfold labels_of in *. rewrite filter_update_other by exact Hne.
      exact H.
Qed.

Lemma keeps_mailbox_ret {A} (ids : list str) (a : A) :
  keeps_mailbox ids (ret a).
Proof. intros w. apply mailbox_kept_refl. Qed.

Lemma keeps_mailbox_bind {A B} (ids : list str) (m : M A) (f : A -> M B) :
  keeps_mailbox ids m -> (forall a, keeps_mailbox ids (f a)) ->
  keeps_mailbox ids (bind m f).
Proof.
  intros Hm Hf w. unfold bind. specialize (Hm w).
  destruct (m w) as [[a|e] w1]; simpl in *; [|exact Hm].
  eapply mailbox_kept_trans; [exact Hm | apply Hf].
Qed.

Lemma keeps_mailbox_remote {A} (env : Env) (ids : list str) (c : Call)
  (op : World -> Result A * World) :
  (forall w, mailbox_kept ids (mailbox w) (mailbox (snd (op w)))) ->
  keeps_mailbox ids (remote env c op).
Proof.
  intros Hop w. unfold remote.
  destruct (fault env (trace w) c); simpl; [apply mailbox_kept_refl|].
  exact (Hop (log c w)).
Qed.

Lemma keeps_mailbox_modify (env : Env) (ids : list str) (c : Call)
  (g : list str -> list str) (id : str) :
  In id ids -> gentle g -> keeps_mailbox ids (messages_modify env c g id).
Proof.
  intros Hid Hg. apply keeps_mailbox_remote. intros w.
  destruct (existsb (has_id id) (mailbox w)); simpl;
    [apply mailbox_kept_update; assumption | apply mailbox_kept_refl].
Qed.

Lemma keeps_mailbox_ensure_label (env : Env) (ids : list str) (name : str) :
  keeps_mailbox ids (ensure_label env name).
Proof.
  unfold ensure_label. apply keeps_mailbox_bind.
  - apply keeps_mailbox_remote. intros w. apply mailbox_kept_refl.
  - intros labels.
    assert (Hc : keeps_mailbox ids (label <- labels_create env name ;;
                                    ret (label_id label))).
    { apply keeps_mailbox_bind; [|intros; apply keeps_mailbox_ret].
      apply keeps_mailbox_remote. intros w. apply mailbox_kept_refl. }
    destruct (find_label labels name) as [[|c r]|];
      [exact Hc | apply keeps_mailbox_ret | exact Hc].
Qed.

Lemma keeps_mailbox_move_to_label (env : Env) (ids : list str)
  (id name : str) :
  In id ids -> keeps_mailbox ids (move_to_label env id name).
Proof.
  intros Hid. unfold move_to_label.
  apply keeps_mailbox_bind; [apply keeps_mailbox_ensure_label|].
  intros lid. apply keeps_mailbox_modify; [exact Hid|].
  apply (gentle_add_label lid).
Qed.

Lemma keeps_mailbox_process_message (env : Env) (ids : list str)
  (labels_list : list str) (rows : list (list Cell)) (id : str) :
  In id ids -> keeps_mailbox ids (process_message env labels_list rows id).
Proof.
  intros Hid. unfold process_message.
  apply keeps_mailbox_bind.
  { apply keeps_mailbox_remote. intros w.
    destruct (find (has_id id) (mailbox w)); apply mailbox_kept_refl. }
  intros full_msg.
  apply keeps_mailbox_bind; [intros w; apply mailbox_kept_refl|].
  intros category. apply keeps_mailbox_bind.
  { destruct (negb (str_eqb category "Other"));
      [apply keeps_mailbox_move_to_label; exact Hid | apply keeps_mailbox_ret]. }
  intros _. apply keeps_mailbox_bind; [intros w; apply mailbox_kept_refl|].
  intros t. apply keeps_mailbox_bind; [|intros; apply keeps_mailbox_ret].
  apply keeps_mailbox_modify; [exact Hid | apply gentle_remove_unread].
Qed.

Lemma keeps_mailbox_process_all (env : Env) (ids : list str)
  (labels_list : list str) (messages : list str) :
  incl messages ids ->
  forall rows, keeps_mailbox ids (process_all env labels_list messages rows).
Proof.
  induction messages as [|id messages IH]; intros Hincl rows; simpl.
  - apply keeps_mailbox_ret.
  - apply keeps_mailbox_bind.
    + apply keeps_mailbox_process_message. apply Hincl. left. reflexivity.
    + intros rows'. apply IH. intros i Hi. apply Hincl. right. exact Hi.
Qed.

Lemma keeps_mailbox_append_to_csv (env : Env) (ids : list str)
  (rows : list (list Cell)) :
  keeps_mailbox ids (append_to_csv env rows).
Proof.
  intros w. unfold append_to_csv.
  assert (Hw : forall df, keeps_mailbox ids (to_csv env df))
    by (intros df; apply keeps_mailbox_remote; intros w0;
        apply mailbox_kept_refl).
  destruct (csv w); [|apply Hw].
  apply keeps_mailbox_bind; [|intros; apply Hw].
  apply keeps_mailbox_remote. intros w0.
  destruct (csv w0); apply mailbox_kept_refl.
Qed.

(** X3: whether a run completes or raises, it adds, drops and reorders
    no message, leaves every payload and every message outside the batch
    as it was, and takes no label other than the unread marker off any
    message. *)
Theorem run_keeps_mailbox (env : Env) (w : World) :
  mailbox_kept (batch w) (mailbox w)
    (mailbox (snd (fetch_and_process_emails env w))).
Proof.
  unfold fetch_and_process_emails.
  set (labels_list := match config w with Some l => l | None => [] end).
  destruct (fault env (trace w) MessagesList) eqn:Ef.
  - assert (H : messages_list env w
                = (Raise (HttpError MessagesList), log MessagesList w))
      by (unfold messages_list, remote; rewrite Ef; reflexivity).
    rewrite (bind_raise _ _ _ _ _ H). exact (mailbox_kept_refl _ _).
  - rewrite (bind_ok _ _ _ _ _ (messages_list_ok env w Ef)).
    destruct (batch w) as [|id0 ids] eqn:Hb;
      [exact (mailbox_kept_refl _ _)|].
    pose proof (keeps_mailbox_process_all env (id0 :: ids) labels_list
                  (id0 :: ids) (incl_refl _) [] (log MessagesList w)) as K.
    change (mailbox (log MessagesList w)) with (mailbox w) in K.
    unfold bind.
    destruct (process_all env labels_list (id0 :: ids) []
                (log MessagesList w)) as [[rows|e] w2];
      cbn [snd] in *; [|exact K].
    pose proof (keeps_mailbox_append_to_csv env (id0 :: ids) rows w2) as K2.
    destruct (append_to_csv env rows w2) as [[u|e] w3]; cbn [snd] in *;
      eapply mailbox_kept_trans; eassumption.
Qed.

(** ** [move_to_label] adds and never removes *)

Lemma ensure_label_id_listed (env : Env) (name lid : str) (w w1 : World) :
  ensure_label env name w = (Ok lid, w1) ->
  mailbox w1 = mailbox w
  /\ exists lbl, In lbl (remote_labels w1) /\ label_id lbl = lid.
Proof.
  unfold ensure_label. intros H.
  apply bind_inv_ok in H. destruct H as [labels [w0 [Hl H]]].
  unfold labels_list, remote in Hl.
  destruct (fault env (trace w) LabelsList); [discriminate|].
  inversion Hl; subst labels w0. clear Hl.
  assert (Hc : (label <- labels_create env name ;; ret (label_id label))
                 (log LabelsList w) = (Ok lid, w1) ->
               mailbox w1 = mailbox w
               /\ exists lbl, In lbl (remote_labels w1) /\ label_id lbl = lid).
  { intros Hc. apply bind_inv_ok in Hc. destruct Hc as [lbl [w2 [Hc Hr]]].
    unfold ret in Hr. inversion Hr; subst lid w2. clear Hr.
    unfold labels_create, remote in Hc.
    destruct (fault env (trace (log LabelsList w)) (LabelsCreate name));
      [discriminate|].
    inversion Hc; subst. simpl. split; [reflexivity|].
    eexists. split; [apply in_or_app; right; left; reflexivity | reflexivity]. }
  simpl remote_labels in H.
  destruct (find_label (remote_labels w) name) as [[|c r]|] eqn:F;
    [exact (Hc H) | | exact (Hc H)].
  unfold ret in H. inversion H; subst lid w1. split; [reflexivity|].
  destruct (find_label_id_in _ _ _ F) as [lbl [Hin Hid]]. exists lbl. auto.
Qed.

Lemma labels_of_update_added (label id : str) (mb : list V2.Message) :
  present mb id = true ->
  In label (labels_of (update_label_ids (add_label label) id mb) id).
Proof.
  intros H. rewrite labels_of_update_id. apply in_flat_map.
  unfold present in H. apply existsb_exists in H. destruct H as [m [Hm Hid]].
  exists m. split; [apply filter_In; auto|].
  unfold add_label. destruct (mem label (label_ids_of m)) eqn:M.
  - apply mem_In. exact M.
  - apply in_or_app. right. left. reflexivity.
Qed.

(** X4: a [move_to_label] that returns has put on the message the id of
    a label the service now holds; it has taken no label off any message
    (the unread marker included), has left the other messages as they
    were, and has not touched the stored table. *)
Theorem move_to_label_additive (env : Env) (id name : str) (w w' : World)
  (Hrun : move_to_label env id name w = (Ok tt, w')) :
  (exists lbl,
     In lbl (remote_labels w')
     /\ In (label_id lbl) (labels_of (mailbox w') id))
  /\ (forall i l, In l (labels_of (mailbox w) i) ->
                  In l (labels_of (mailbox w') i))
  /\ (forall i, i <> id ->
                filter (has_id i) (mailbox w') = filter (has_id i) (mailbox w))
  /\ map V2.msg_id (mailbox w') = map V2.msg_id (mailbox w)
  /\ csv w' = csv w.
Proof.
  pose proof (frames_move_to_label env id name w) as F. rewrite Hrun in F.
  destruct F as [C _]. simpl in C.
  unfold move_to_label in Hrun. apply bind_inv_ok in Hrun.
  destruct Hrun as [lid [w1 [He Hm]]].
  apply ensure_label_id_listed in He. destruct He as [Hmb [lbl [Hin Hid]]].
  unfold messages_modify_add, messages_modify, remote in Hm.
  destruct (fault env (trace w1) (MessagesModifyAdd id lid)); [discriminate|].
  simpl in Hm.
  destruct (existsb (has_id id) (mailbox w1)) eqn:P; [|discriminate].
  inversion Hm; subst w'. clear Hm. simpl. rewrite Hmb in *.
  fold (add_label lid).
  split; [|split; [|split; [|split]]].
  - exists lbl. split; [exact Hin|]. rewrite Hid.
    apply labels_of_update_added. exact P.
  - intros i l H. destruct (list_eq_dec ascii_dec i id) as [->|Hne].
    + apply labels_of_update_same; [|exact H].
      intros l' Hl. unfold add_label.
      destruct (mem lid l'); [exact Hl | apply in_or_app; left; exact Hl].
    + unfold labels_of in *. rewrite filter_update_other by exact Hne. exact H.
  - intros i Hne. apply filter_update_other. exact Hne.
  - unfold update_label_ids. rewrite map_map. apply map_ext.
    intros m. destruct (has_id id m); reflexivity.
  - exact C.
Qed.

Lemma move_to_label_additive_witness :
  exists w',
    move_to_label quiet_env "m1" "Invoices" two_unread = (Ok tt, w')
    /\ (exists lbl,
          In lbl (remote_labels w')
          /\ In (label_id lbl) (labels_of (mailbox w') "m1"))
    /\ In (lit "UNREAD") (labels_of (mailbox w') "m1").
Proof.
  exists (snd (move_to_label quiet_env "m1" "Invoices" two_unread)).
  split; [reflexivity|].
  destruct (move_to_label_additive quiet_env "m1" "Invoices" two_unread
              (snd (move_to_label quiet_env "m1" "Invoices" two_unread))
              eq_refl) as [H1 [H2 _]].
  split; [exact H1|]. apply H2. right. left. reflexivity.
Defined.

(** ** The report and the rows of a run *)

Lemma batch_length (w : World) :
  length (batch w) = Nat.min 10 (length (filter is_unread (mailbox w))).
Proof. unfold batch. rewrite length_firstn, length_map. reflexivity. Qed.

Lemma batch_nil (w : World) :
  batch w = [] -> filter is_unread (mailbox w) = [].
Proof.
  intros H. pose proof (batch_length w) as L. rewrite H in L. simpl in L.
  destruct (filter is_unread (mailbox w)); [reflexivity|].
  simpl in L. discriminate.
Qed.

(** X5: a run that completes reports either that nothing is unread, and
    then it has made the one listing call and changed nothing else, or
    the number of messages it processed, which is the number of unread
    messages capped at ten and at least one. *)
Theorem run_report (env : Env) (w w' : World) (r : Report)
  (Hrun : fetch_and_process_emails env w = (Ok r, w')) :
  (r = NoUnread
   /\ filter is_unread (mailbox w) = []
   /\ w' = log MessagesList w)
  \/ (exists n,
        r = Processed n
        /\ 1 <= n <= 10
        /\ n = Nat.min 10 (length (filter is_unread (mailbox w)))
        /\ trace w' <> trace w ++ [MessagesList]).
Proof.
  unfold fetch_and_process_emails in Hrun.
  apply bind_inv_ok in Hrun. destruct Hrun as [ids [w1 [Hlist Hrun]]].
  apply messages_list_inv in Hlist. destruct Hlist as [-> ->].
  destruct (batch w) as [|id0 ids] eqn:Hb.
  - left. unfold ret in Hrun. inversion Hrun. repeat split.
    apply batch_nil. exact Hb.
  - right.
    apply bind_inv_ok in Hrun. destruct Hrun as [rows [w2 [Hloop Hrun]]].
    apply bind_inv_ok in Hrun. destruct Hrun as [u [w3 [Hcsv Hrun]]].
    unfold ret in Hrun. inversion Hrun; subst r w3. clear Hrun.
    pose proof (process_all_frame env
                  match config w with Some l => l | None => [] end
                  (id0 :: ids) [] (log MessagesList w)) as F.
    rewrite Hloop in F. destruct F as [_ [_ [_ [_ [k [T _]]]]]].
    cbn [snd trace log] in T.
    apply process_all_ok_inv in Hloop.
    destruct Hloop as [[new [-> [Hlen _]]] _].
    destruct u. apply append_to_csv_inv in Hcsv.
    destruct Hcsv as [_ [_ [reads [Tw _]]]].
    pose proof (batch_length w) as L. rewrite Hb in L.
    exists (length new). cbn [app]. rewrite Hlen.
    split; [reflexivity|]. split; [|split; [exact L|]].
    + rewrite L. split; [|apply Nat.le_min_l]. rewrite <- L. simpl. lia.
    + rewrite Tw, T. intros E. rewrite <- !app_assoc in E.
      apply app_inv_head in E. simpl in E. inversion E as [E'].
      destruct k; destruct reads; discriminate.
Qed.

Lemma run_report_witness :
  exists n,
    Processed 2 = Processed n
    /\ 1 <= n <= 10
    /\ n = Nat.min 10 (length (filter is_unread (mailbox two_unread))).
Proof.
  destruct (run_report quiet_env two_unread
              (snd (fetch_and_process_emails quiet_env two_unread))
              (Processed 2) eq_refl) as [[H _]|[n [H1 [H2 [H3 _]]]]].
  - discriminate H.
  - exists n. auto.
Defined.

Lemma forwarded_range (subject : str) :
  V2.forwarded subject = "Yes" \/ V2.forwarded subject = "No".
Proof.
  unfold V2.forwarded.
  destruct (contains "Fwd:" subject || contains "FW:" subject)%bool; auto.
Qed.

Lemma get_section_range (label_ids : list str) :
  In (V2.get_section label_ids)
     (map lit ["Primary"; "Social"; "Promotions"; "Updates"; "Forums"]).
Proof.
  unfold V2.get_section.
  repeat match goal with
         | |- context [mem ?x label_ids] => destruct (mem x label_ids)
         end; simpl; auto 10.
Qed.

Lemma attachments_range (p : V2.Payload) :
  fst (V2.attachments p) = "Yes"
  \/ (fst (V2.attachments p) = "No" /\ snd (V2.attachments p) = []).
Proof.
  rewrite attachment_flag.
  destruct (payload_filenames p) as [|f names] eqn:E; [right | left; reflexivity].
  split; [reflexivity|].
  unfold V2.attachments, payload_filenames in *.
  destruct (V2.parts p) as [ps|]; [|reflexivity].
  rewrite scan_parts_spec, E. reflexivity.
Qed.

Lemma classify_inv (env : Env) (text : str) (labels : list str)
  (category : str) (w w' : World) :
  classify env text labels w = (Ok category, w') ->
  w' = w /\ (In category labels \/ category = "Other").
Proof.
  unfold classify. intros H.
  destruct (categorize_email_ok (ollama env (trace w)) text labels)
    as [c [E Hc]].
  rewrite E in H. inversion H; subst. split; [reflexivity|].
  destruct Hc as [[_ Hc]|Hc]; auto.
Qed.

(** The row a turn adds is a well-formed record. *)
Lemma process_message_row (env : Env) (labels_list : list str)
  (rows rows' : list (list Cell)) (id : str) (w w' : World) :
  process_message env labels_list rows id w = (Ok rows', w') ->
  exists row, rows' = rows ++ [row] /\ record_ok labels_list row.
Proof.
  unfold process_message. intros H.
  apply bind_inv_ok in H. destruct H as [full_msg [w1 [_ H]]].
  apply bind_inv_ok in H. destruct H as [category [w2 [Hcl H]]].
  apply bind_inv_ok in H. destruct H as [u [w3 [_ H]]].
  apply bind_inv_ok in H. destruct H as [t [w4 [_ H]]].
  apply bind_inv_ok in H. destruct H as [u' [w5 [_ H]]].
  unfold ret in H. inversion H; subst rows' w5. clear H.
  apply classify_inv in Hcl. destruct Hcl as [_ Hcat].
  eexists. split; [reflexivity|]. unfold record_ok.
  do 12 eexists. split; [reflexivity|].
  split; [apply forwarded_range|]. split; [apply get_section_range|].
  split; [apply attachments_range | exact Hcat].
Qed.

Lemma process_all_rows (env : Env) (labels_list : list str) (ids : list str) :
  forall rows rows' w w',
    process_all env labels_list ids rows w = (Ok rows', w') ->
    exists new, rows' = rows ++ new /\ Forall (record_ok labels_list) new.
Proof.
  induction ids as [|id ids IH]; intros rows rows' w w' H; simpl in H.
  - unfold ret in H. inversion H; subst. exists []. rewrite app_nil_r. auto.
  - apply bind_inv_ok in H. destruct H as [rows1 [w1 [H1 H2]]].
    apply process_message_row in H1. destruct H1 as [row [-> Hrow]].
    apply IH in H2. destruct H2 as [new [-> Hnew]].
    exists (row :: new). rewrite <- app_assoc. split; [reflexivity|].
    constructor; assumption.
Qed.

(** X6: every row that a completed run adds to the store is a record of
    twelve cells whose forwarded and attachment flags are Yes or No (no
    attachment names without the flag), whose section is one of the five
    sections, and whose category is one of the configured labels or
    Other. *)
Theorem run_rows_are_records (env : Env) (w w' : World) (n : nat)
  (Hrun : fetch_and_process_emails env w = (Ok (Processed n), w')) :
  exists new,
    csv w' = Some (append_rows (csv w) new)
    /\ length new = n
    /\ Forall (record_ok (config_labels w)) new.
Proof.
  unfold fetch_and_process_emails in Hrun.
  apply bind_inv_ok in Hrun. destruct Hrun as [ids [w1 [Hlist Hrun]]].
  apply messages_list_inv in Hlist. destruct Hlist as [-> ->].
  destruct (batch w) as [|id0 ids] eqn:Hb; [discriminate|].
  apply bind_inv_ok in Hrun. destruct Hrun as [rows [w2 [Hloop Hrun]]].
  apply bind_inv_ok in Hrun. destruct Hrun as [u [w3 [Hcsv Hrun]]].
  unfold ret in Hrun. inversion Hrun; subst n w3. clear Hrun.
  pose proof (process_all_frame env
                match config w with Some l => l | None => [] end
                (id0 :: ids) [] (log MessagesList w)) as F.
  rewrite Hloop in F. destruct F as [C _]. cbn [snd csv log] in C.
  apply process_all_rows in Hloop. destruct Hloop as [new [-> Hnew]].
  destruct u. apply append_to_csv_inv in Hcsv. destruct Hcsv as [Hfile _].
  exists new. rewrite Hfile, C. auto.
Qed.

Lemma run_rows_are_records_witness :
  exists new,
    csv (snd (fetch_and_process_emails quiet_env two_unread))
      = Some (append_rows (csv two_unread) new)
    /\ length new = 2
    /\ Forall (record_ok (config_labels two_unread)) new.
Proof.
  apply (run_rows_are_records quiet_env two_unread
           (snd (fetch_and_process_emails quiet_env two_unread)) 2).
  reflexivity.
Defined.

(** ** A run whose classifier cannot be started *)

Lemma categorize_email_down (run : str -> str -> Result str)
  (text : str) (labels : list str) :
  (exists e, run "mistral" (V2.categorize_prompt text labels) = Raise e) ->
  V2.categorize_email run text labels = Ok (lit "Other").
Proof.
  intros [e H]. unfold V2.categorize_email. rewrite H. reflexivity.
Qed.

Lemma process_message_down (env : Env) (labels_list : list str)
  (rows : list (list Cell)) (id : str) (w : World) :
  no_fault env -> classifier_down env -> present (mailbox w) id = true ->
  exists row w',
    process_message env labels_list rows id w = (Ok (rows ++ [row]), w')
    /\ category_other row
    /\ trace w' = trace w ++ plain_turn id
    /\ remote_labels w' = remote_labels w
    /\ csv w' = csv w
    /\ forall i, present (mailbox w') i = present (mailbox w) i.
Proof.
  intros Hf Hd Hp. unfold process_message.
  assert (Hget : exists m, messages_get env id w = (Ok m, log (MessagesGet id) w)).
  { unfold messages_get, remote. rewrite Hf. simpl.
    destruct (existsb_find _ _ Hp) as [m Hm]. rewrite Hm. eauto. }
  destruct Hget as [m Hget]. rewrite (bind_ok _ _ _ _ _ Hget).
  set (w1 := log (MessagesGet id) w).
  match goal with
  | |- context [classify env ?text labels_list] =>
      assert (Hcl : classify env text labels_list w1 = (Ok (lit "Other"), w1))
        by (unfold classify;
            rewrite (categorize_email_down _ text labels_list (Hd _ _ _));
            reflexivity)
  end.
  rewrite (bind_ok _ _ _ _ _ Hcl).
  rewrite str_eqb_refl. cbn [negb].
  unfold ret at 1. unfold bind at 1. unfold clock at 1. unfold bind at 1.
  unfold messages_modify_remove, messages_modify, remote.
  unfold bind at 1. rewrite Hf.
  assert (Hp1 : existsb (has_id id) (mailbox (log (MessagesModifyRemove id "UNREAD") w1)) = true)
    by exact Hp.
  rewrite Hp1. unfold ret.
  eexists. eexists. split; [reflexivity|].
  split; [reflexivity|]. split.
  { cbn [trace set_mailbox log w1]. rewrite <- app_assoc. reflexivity. }
  split; [reflexivity|]. split; [reflexivity|].
  intros i. cbn [mailbox set_mailbox log w1]. apply present_update.
Qed.

Lemma process_all_down (env : Env) (labels_list : list str) (ids : list str) :
  no_fault env -> classifier_down env ->
  forall rows w,
    (forall id, In id ids -> present (mailbox w) id = true) ->
    exists new w',
      process_all env labels_list ids rows w = (Ok (rows ++ new), w')
      /\ length new = length ids
      /\ Forall category_other new
      /\ trace w' = trace w ++ flat_map plain_turn ids
      /\ remote_labels w' = remote_labels w
      /\ csv w' = csv w.
Proof.
  intros Hf Hd. induction ids as [|id ids IH]; intros rows w Hp; simpl.
  - exists [], w. rewrite !app_nil_r. repeat split. constructor.
  - destruct (process_message_down env labels_list rows id w Hf Hd
                (Hp id (or_introl eq_refl)))
      as [row [w1 [H1 [Hrow [T1 [L1 [C1 P1]]]]]]].
    rewrite (bind_ok _ _ _ _ _ H1).
    destruct (IH (rows ++ [row]) w1) as [new [w' [H2 [Hlen [Hnew [T2 [L2 C2]]]]]]].
    { intros i Hi. rewrite P1. apply Hp. right. exact Hi. }
    exists (row :: new), w'. rewrite H2, <- app_assoc. split; [reflexivity|].
    split; [simpl; congruence|]. split; [constructor; assumption|].
    split; [|split; congruence].
    rewrite T2, T1. unfold plain_turn at 2. rewrite <- !app_assoc.
    reflexivity.
Qed.

Lemma append_to_csv_run (env : Env) (rows : list (list Cell)) (w : World) :
  (forall tr, fault env tr ReadCsv = false /\ fault env tr WriteCsv = false) ->
  append_to_csv env rows w
  = (Ok tt,
     set_csv (Some (append_rows (csv w) rows))
       (log WriteCsv
          match csv w with
          | Some _ => log ReadCsv w
          | None => w
          end)).
Proof.
  intros Hio. unfold append_to_csv. destruct (csv w) as [df|] eqn:E.
  - unfold bind, read_csv, to_csv, remote.
    rewrite (proj1 (Hio _)). cbn [csv log]. rewrite E, (proj2 (Hio _)).
    reflexivity.
  - unfold to_csv, remote. rewrite (proj2 (Hio _)). reflexivity.
Qed.

(** X7: when no remote call fails and the classifier subprocess cannot
    be run, the run still completes: it fetches and marks read every
    message of the batch in order, makes no label call at all, leaves the
    labels of the service as they are, and stores one row with the
    category Other for each message. *)
Theorem run_with_classifier_down (env : Env) (w : World)
  (Hfault : no_fault env)
  (Hdown : classifier_down env)
  (Hunread : batch w <> []) :
  exists new reads w',
    fetch_and_process_emails env w = (Ok (Processed (length (batch w))), w')
    /\ trace w'
       = trace w ++ [MessagesList] ++ flat_map plain_turn (batch w)
         ++ reads ++ [WriteCsv]
    /\ (reads = [] \/ reads = [ReadCsv])
    /\ remote_labels w' = remote_labels w
    /\ csv w' = Some (append_rows (csv w) new)
    /\ length new = length (batch w)
    /\ Forall category_other new.
Proof.
  unfold fetch_and_process_emails.
  rewrite (bind_ok _ _ _ _ _ (messages_list_ok env w (Hfault _ _))).
  destruct (batch w) as [|id0 ids] eqn:Hb; [congruence|].
  set (labels_list := match config w with Some l => l | None => [] end).
  destruct (process_all_down env labels_list (id0 :: ids) Hfault Hdown []
              (log MessagesList w))
    as [new [w2 [Hloop [Hlen [Hnew [T [L C]]]]]]].
  { intros i Hi. apply (batch_present w). rewrite Hb. exact Hi. }
  rewrite (bind_ok _ _ _ _ _ Hloop).
  assert (Hio : forall tr, fault env tr ReadCsv = false
                           /\ fault env tr WriteCsv = false)
    by (intros tr; split; apply Hfault).
  rewrite (bind_ok _ _ _ _ _ (append_to_csv_run env ([] ++ new) w2 Hio)).
  unfold ret. cbn [app] in *. cbn [trace log remote_labels csv] in T, L, C.
  exists new, (match csv w2 with Some _ => [ReadCsv] | None => [] end).
  eexists. split; [rewrite Hlen; reflexivity|].
  cbn [trace remote_labels csv set_csv log].
  split; [|split; [|split; [|split; [|split]]]].
  - destruct (csv w2); cbn [trace log]; rewrite T, <- !app_assoc; reflexivity.
  - destruct (csv w2); auto.
  - destruct (csv w2); cbn [remote_labels log]; exact L.
  - rewrite C. reflexivity.
  - exact Hlen.
  - exact Hnew.
Qed.

Lemma run_with_classifier_down_witness :
  exists new reads w',
    fetch_and_process_emails down_env two_unread
      = (Ok (Processed (length (batch two_unread))), w')
    /\ trace w'
       = trace two_unread ++ [MessagesList]
         ++ flat_map plain_turn (batch two_unread) ++ reads ++ [WriteCsv]
    /\ (reads = [] \/ reads = [ReadCsv])
    /\ remote_labels w' = remote_labels two_unread
    /\ csv w' = Some (append_rows (csv two_unread) new)
    /\ length new = length (batch two_unread)
    /\ Forall category_other new.
Proof.
  apply (run_with_classifier_down down_env two_unread).
  - intros tr c. reflexivity.
  - intros tr model prompt. eexists. reflexivity.
  - discriminate.
Defined.

(** ** The store over several runs, and over the two versions *)

Lemma filter_none {A} (f : A -> bool) (l : list A) :
  (forall x, In x l -> f x = false) -> filter f l = [].
Proof.
  induction l as [|x l IH]; intros H; simpl; [reflexivity|].
  rewrite (H x (or_introl eq_refl)). apply IH. intros y Hy. apply H.
  right. exact Hy.
Qed.

Lemma reindex_reindex (cols src : list str) (row : list Cell) :
  reindex cols cols (reindex src cols row) = reindex src cols row.
Proof.
  unfold reindex. apply map_ext_in. intros c Hc. rewrite cell_at_map.
  apply mem_In in Hc. rewrite Hc. reflexivity.
Qed.

Lemma concat_new_frame_columns (df : DataFrame) (rows rows' : list (list Cell)) :
  columns (concat (concat df (new_frame rows)) (new_frame rows'))
  = columns (concat df (new_frame rows)).
Proof.
  set (A := concat df (new_frame rows)).
  change (columns (concat A (new_frame rows')))
    with (columns A ++ filter (fun c => negb (mem c (columns A))) COLUMNS).
  rewrite (filter_none (fun c => negb (mem c (columns A))) COLUMNS);
    [apply app_nil_r|].
  intros c Hc. apply negb_false_iff.
  apply (concat_columns_right df (new_frame rows) c). apply mem_In. exact Hc.
Qed.

(** X8: appending the rows of one run and then the rows of the next
    stores the same table as appending both lists at once; starting
    without a file, this holds for rows of twelve cells, as the loop
    builds them. *)
Theorem append_rows_twice (df : DataFrame) (rows1 rows2 : list (list Cell))
  (Hrows1 : Forall (fun row => length row = 12) rows1)
  (Hrows2 : Forall (fun row => length row = 12) rows2) :
  append_rows (Some (append_rows (Some df) rows1)) rows2
  = append_rows (Some df) (rows1 ++ rows2)
  /\ append_rows (Some (append_rows None rows1)) rows2
     = append_rows None (rows1 ++ rows2).
Proof.
  split.
  - unfold append_rows.
    pose proof (concat_new_frame_columns df rows1 rows2) as Hc.
    unfold concat at 1.
    change (columns (concat df (new_frame rows1))
            ++ filter (fun c => negb (mem c (columns (concat df (new_frame rows1)))))
                 (columns (new_frame rows2)))
      with (columns (concat (concat df (new_frame rows1)) (new_frame rows2))).
    rewrite Hc.
    set (cols := columns (concat df (new_frame rows1))).
    assert (Ec : columns (concat df (new_frame (rows1 ++ rows2))) = cols)
      by reflexivity.
    unfold concat at 2. fold cols.
    change (data (concat df (new_frame rows1)))
      with (map (reindex (columns df) cols) (data df)
            ++ map (reindex COLUMNS cols) rows1).
    rewrite map_app, !map_map.
    rewrite (map_ext _ _ (fun row => reindex_reindex cols (columns df) row)).
    rewrite (map_ext _ _ (fun row => reindex_reindex cols COLUMNS row)).
    rewrite <- app_assoc, <- map_app. reflexivity.
  - change (append_rows None rows1) with (new_frame rows1).
    rewrite (append_rows_same_schema rows1 rows2 Hrows1 Hrows2).
    reflexivity.
Qed.

Lemma append_rows_twice_witness :
  append_rows
    (Some (append_rows (Some (new_frame [sample_row "old@x.com" "Other"]))
             [sample_row "a@x.com" "Invoices"]))
    [sample_row "b@x.com" "Other"]
  = append_rows (Some (new_frame [sample_row "old@x.com" "Other"]))
      ([sample_row "a@x.com" "Invoices"] ++ [sample_row "b@x.com" "Other"])
  /\ append_rows (Some (append_rows None [sample_row "a@x.com" "Invoices"]))
       [sample_row "b@x.com" "Other"]
     = append_rows None
         ([sample_row "a@x.com" "Invoices"] ++ [sample_row "b@x.com" "Other"]).
Proof.
  apply (append_rows_twice (new_frame [sample_row "old@x.com" "Other"])
           [sample_row "a@x.com" "Invoices"] [sample_row "b@x.com" "Other"]);
    repeat constructor.
Defined.

(** X9: the two versions write different headers.  When the second
    version appends to a table written by the first, the table gets
    sixteen columns: the fourteen of the first version, then [Attachment
    Names] and [Category].  The old rows are empty under [Category], the
    new rows are empty under [Summary] and under the first version's
    [AttachmentNames], and no row is lost. *)
Theorem append_to_first_version_store (old rows : list (list Cell)) :
  let df := append_rows (Some {| columns := COLUMNS_V1; data := old |}) rows in
  columns df = COLUMNS_V1 ++ [lit "Attachment Names"; lit "Category"]
  /\ length (data df) = length old + length rows
  /\ map (fun row => cell_at (columns df) row "Category") (data df)
     = map (fun _ => CNaN) old
       ++ map (fun row => cell_at COLUMNS row "Category") rows
  /\ map (fun row => cell_at (columns df) row "Summary") (data df)
     = map (fun row => cell_at COLUMNS_V1 row "Summary") old
       ++ map (fun _ => CNaN) rows
  /\ map (fun row => cell_at (columns df) row "AttachmentNames") (data df)
     = map (fun row => cell_at COLUMNS_V1 row "AttachmentNames") old
       ++ map (fun _ => CNaN) rows.
Proof.
  intros df. split; [reflexivity|]. split.
  { unfold df. simpl. rewrite length_app, !length_map. reflexivity. }
  unfold df, append_rows.
  rewrite !concat_column_view. cbn [columns data new_frame].
  split; [|split]; f_equal; apply map_ext; intros row;
    apply cell_at_absent; reflexivity.
Qed.

(** * [agent_b.py] *)

(** ** Dictionaries *)

Lemma str_eqb_sym (a b : str) : str_eqb a b = str_eqb b a.
Proof.
  destruct (str_eqb a b) eqn:E.
  - apply str_eqb_eq in E. subst. symmetry. apply str_eqb_refl.
  - symmetry. apply str_eqb_neq. apply str_eqb_neq in E. congruence.
Qed.

Lemma keys_dict_set {V} (k : str) (v : V) (d : list (str * V)) :
  AgentB.keys (AgentB.dict_set k v d)
  = if mem k (AgentB.keys d) then AgentB.keys d else AgentB.keys d ++ [k].
Proof.
  unfold AgentB.keys.
  induction d as [|[k' v'] d IH]; [reflexivity|].
  cbn [AgentB.dict_set map fst].
  assert (M : mem k (k' :: map fst d) = (str_eqb k' k || mem k (map fst d))%bool)
    by (change (mem k (k' :: map fst d))
          with (str_eqb k k' || mem k (map fst d))%bool;
        rewrite (str_eqb_sym k k'); reflexivity).
  rewrite M. destruct (str_eqb k' k) eqn:E; cbn [orb map fst]; [reflexivity|].
  rewrite IH. destruct (mem k (map fst d)); reflexivity.
Qed.

Lemma dict_get_set {V} (k k' : str) (v : V) (d : list (str * V)) :
  AgentB.dict_get k (AgentB.dict_set k' v d)
  = if str_eqb k' k then Some v else AgentB.dict_get k d.
Proof.
  induction d as [|[k0 v0] d IH]; cbn [AgentB.dict_set AgentB.dict_get].
  - reflexivity.
  - destruct (str_eqb k0 k') eqn:E0; cbn [AgentB.dict_get].
    + apply str_eqb_eq in E0. subst k0.
      destruct (str_eqb k' k); reflexivity.
    + destruct (str_eqb k0 k) eqn:E1; [|exact IH].
      apply str_eqb_eq in E1. subst k0. rewrite (str_eqb_sym k' k), E0.
      reflexivity.
Qed.

Lemma dict_set_fresh {V} (k : str) (v : V) (d : list (str * V)) :
  ~ In k (AgentB.keys d) -> AgentB.dict_set k v d = d ++ [(k, v)].
Proof.
  induction d as [|[k' v'] d IH]; intros H; [reflexivity|].
  cbn [AgentB.dict_set]. simpl in H.
  assert (E : str_eqb k' k = false)
    by (apply str_eqb_neq; intros ->; apply H; left; reflexivity).
  rewrite E, IH by (intros Hk; apply H; right; exact Hk). reflexivity.
Qed.

Lemma dict_get_In {V} (k : str) (v : V) (d : list (str * V)) :
  NoDup (AgentB.keys d) -> (In (k, v) d <-> AgentB.dict_get k d = Some v).
Proof.
  induction d as [|[k' v'] d IH]; intros Hnd; cbn [AgentB.dict_get].
  - split; [intros [] | discriminate].
  - simpl in Hnd. inversion Hnd as [|? ? Hk Hnd']; subst.
    destruct (str_eqb k' k) eqn:E.
    + apply str_eqb_eq in E. subst k'. split.
      * intros [H|H]; [inversion H; reflexivity|].
        exfalso. apply Hk. apply in_map_iff. exists (k, v). auto.
      * intros H. inversion H. left. reflexivity.
    + rewrite <- (IH Hnd'). split.
      * intros [H|H]; [|exact H]. inversion H; subst.
        rewrite str_eqb_refl in E. discriminate.
      * intros H. right. exact H.
Qed.

(** ** First occurrences *)

Lemma firsts_In (l seen : list str) (x : str) :
  In x (firsts seen l) <-> In x l /\ ~ In x seen.
Proof.
  revert seen; induction l as [|y l IH]; intros seen; simpl.
  - tauto.
  - destruct (mem y seen) eqn:E.
    + rewrite IH. apply mem_In in E. split.
      * intros [H1 H2]. auto.
      * intros [[->|H1] H2]; [contradiction | auto].
    + apply mem_not_In in E. simpl. rewrite IH. split.
      * intros [<-|[H1 H2]]; [auto|]. split; [auto|].
        intros H. apply H2. apply in_or_app. left. exact H.
      * intros [[->|H1] H2]; [left; reflexivity|].
        destruct (list_eq_dec ascii_dec y x) as [->|Hne];
          [left; reflexivity|].
        right. split; [exact H1|]. intros H. apply in_app_or in H.
        destruct H as [H|[H|[]]]; [contradiction | congruence].
Qed.

Lemma firsts_NoDup (l seen : list str) : NoDup (firsts seen l).
Proof.
  revert seen; induction l as [|y l IH]; intros seen; simpl.
  - constructor.
  - destruct (mem y seen); [apply IH|]. constructor; [|apply IH].
    rewrite firsts_In. intros [_ H]. apply H. apply in_or_app. right.
    left. reflexivity.
Qed.

Lemma firsts_id (l seen : list str) :
  NoDup l -> (forall x, In x l -> ~ In x seen) -> firsts seen l = l.
Proof.
  revert seen; induction l as [|y l IH]; intros seen Hnd Hs; simpl;
    [reflexivity|].
  inversion Hnd as [|? ? Hy Hnd']; subst.
  assert (E : mem y seen = false)
    by (apply mem_not_In; apply Hs; left; reflexivity).
  rewrite E. f_equal. apply IH; [exact Hnd'|].
  intros x Hx H. apply in_app_or in H. destruct H as [H|[H|[]]].
  - exact (Hs x (or_intror Hx) H).
  - subst. contradiction.
Qed.

(** ** Filling a dictionary in a loop *)

Section DictLoop.

Variables (A V : Type) (key : A -> str) (val : A -> V).

Local Abbreviation fill := (fill key val).

Lemma keys_fill (l : list A) :
  forall d,
    AgentB.keys (fill l d)
    = AgentB.keys d ++ firsts (AgentB.keys d) (map key l).
Proof.
  induction l as [|x l IH]; intros d; simpl.
  - rewrite app_nil_r. reflexivity.
  - unfold fill in *. rewrite IH, keys_dict_set.
    destruct (mem (key x) (AgentB.keys d)); [reflexivity|].
    rewrite <- app_assoc. reflexivity.
Qed.

Lemma dict_get_fill (k : str) (l : list A) :
  forall d,
    AgentB.dict_get k (fill l d)
    = match find (fun x => str_eqb (key x) k) (rev l) with
      | Some x => Some (val x)
      | None => AgentB.dict_get k d
      end.
Proof.
  induction l as [|x l IH]; intros d; simpl; [reflexivity|].
  unfold fill in *. rewrite IH, find_app, dict_get_set. simpl.
  destruct (find (fun x0 => str_eqb (key x0) k) (rev l)); [reflexivity|].
  destruct (str_eqb (key x) k); reflexivity.
Qed.

Lemma fill_entries (l : list A) :
  forall d k v,
    In (k, v) (fill l d) ->
    In (k, v) d \/ exists x, In x l /\ k = key x /\ v = val x.
Proof.
  induction l as [|x l IH]; intros d k v H; simpl in H; [left; exact H|].
  unfold fill in *. apply IH in H. destruct H as [H|[y [Hy E]]].
  - assert (G : forall d0, In (k, v) (AgentB.dict_set (key x) (val x) d0) ->
                           In (k, v) d0 \/ (k = key x /\ v = val x)).
    { induction d0 as [|[k0 v0] d0 IHd]; cbn [AgentB.dict_set].
      - intros [E|[]]. inversion E. auto.
      - destruct (str_eqb k0 (key x)) eqn:E0.
        + apply str_eqb_eq in E0. subst k0.
          intros [E|E]; [inversion E; auto | left; right; exact E].
        + intros [E|E]; [left; left; exact E|].
          destruct (IHd E) as [G|G]; [left; right; exact G | right; exact G]. }
    destruct (G d H) as [G1|[G1 G2]]; [left; exact G1|].
    right. exists x. split; [left; reflexivity | auto].
  - right. exists y. split; [right; exact Hy | exact E].
Qed.

Lemma fill_fresh (l : list A) :
  forall d,
    NoDup (map key l) ->
    (forall x, In x l -> ~ In (key x) (AgentB.keys d)) ->
    fill l d = d ++ map (fun x => (key x, val x)) l.
Proof.
  induction l as [|x l IH]; intros d Hnd Hd; simpl.
  - rewrite app_nil_r. reflexivity.
  - simpl in Hnd. inversion Hnd as [|? ? Hx Hnd']; subst.
    unfold fill in *. rewrite dict_set_fresh by (apply Hd; left; reflexivity).
    rewrite IH; [rewrite <- app_assoc; reflexivity | exact Hnd' |].
    intros y Hy H. unfold AgentB.keys in H. rewrite map_app in H.
    apply in_app_or in H. destruct H as [H|[H|[]]].
    + exact (Hd y (or_intror Hy) H).
    + simpl in H. apply Hx. rewrite H. apply in_map. exact Hy.
Qed.

End DictLoop.
